(** * FlowSync transcript buffer: a shallow embedding of
    [backend/app/services/transcript_buffer.py] and its properties.

    Python objects with identity (the [TranscriptEntry] instances, the
    [deque] and [list] containers) live in an explicit store and are
    referred to by address, so that sharing between the two views of a
    buffer and between the buffer and its callers is visible. *)

From Stdlib Require Import ZArith NArith.
From stdpp Require Import gmap list fin_maps strings sorting.

Open Scope Z_scope.

(** ** Strings

    A Python [str] is a sequence of Unicode code points. *)

Abbreviation str := (list N).

(** Code points of an ASCII literal, to write texts down. *)
Definition codes (s : String.string) : str :=
  map Ascii.N_of_ascii (String.list_ascii_of_string s).
Arguments codes s%_string.

(** [str.isspace] on one code point (CPython's [Py_UNICODE_ISSPACE]): the
    characters [str.strip()] and [str.split()] treat as whitespace. *)
Definition isspace (c : N) : bool :=
  ((9 <=? c) && (c <=? 13) || (28 <=? c) && (c <=? 32)
   || (c =? 133) || (c =? 160) || (c =? 5760)
   || (8192 <=? c) && (c <=? 8202)
   || (c =? 8232) || (c =? 8233) || (c =? 8239) || (c =? 8287)
   || (c =? 12288))%N.

Definition SPACE : N := 32%N.
Definition DOT : N := 46%N.
Definition BANG : N := 33%N.
Definition QUESTION : N := 63%N.

Section Characters.
(** The list functions below are those of [str]; they are written over
    an arbitrary whitespace test so that their lemmas do not unfold
    the table above. *)
Variable ws : N → bool.

(** [s.lstrip()] *)
Fixpoint lstrip_by (s : str) : str :=
  match s with
  | c :: r => if ws c then lstrip_by r else s
  | [] => []
  end.

(** [s.strip()]: whitespace removed at both ends. *)
Definition strip_by (s : str) : str :=
  rev (lstrip_by (rev (lstrip_by s))).

(** [s.split()] with no separator: the maximal runs of non-whitespace
    characters, in order; [w] is the word being read. *)
Fixpoint split_by (w : str) (s : str) : list str :=
  match s with
  | [] => match w with [] => [] | _ => [w] end
  | c :: r =>
      if ws c
      then match w with [] => split_by [] r | _ => w :: split_by [] r end
      else split_by (w ++ [c]) r
  end.

(** Every maximal run of whitespace replaced by one space; [in_run]
    tells that the character before [s] was whitespace. *)
Fixpoint collapse_by (in_run : bool) (s : str) : str :=
  match s with
  | [] => []
  | c :: r =>
      if ws c
      then (if in_run then collapse_by true r else SPACE :: collapse_by true r)
      else c :: collapse_by false r
  end.
End Characters.

(** [sep.join(words)] *)
Fixpoint join (sep : str) (words : list str) : str :=
  match words with
  | [] => []
  | [w] => w
  | w :: rest => w ++ sep ++ join sep rest
  end.

Definition strip : str → str := strip_by isspace.
Definition split : str → list str := split_by isspace [].

(** [c in '.!?'] for a one-character string [c]. *)
Definition is_terminal (c : N) : bool :=
  ((c =? DOT) || (c =? BANG) || (c =? QUESTION))%N.

(** [TranscriptBufferService._normalize_text] *)
Definition _normalize_text (text : str) : str :=
  let cleaned := join [SPACE] (split (strip text)) in
  match last cleaned with
  | None => []
  | Some c => if is_terminal c then cleaned else cleaned ++ [DOT]
  end.

(** Normalization in the words of the specification: runs of whitespace
    collapsed to single spaces, whitespace trimmed at both ends, and a
    full stop appended to a non-empty result that does not end in one of
    [.], [!], [?]. *)
Definition collapse_whitespace : str → str := collapse_by isspace false.

Definition spec_normalize (text : str) : str :=
  let trimmed := strip (collapse_whitespace text) in
  match last trimmed with
  | None => []
  | Some c => if is_terminal c then trimmed else trimmed ++ [DOT]
  end.

(** ** Objects and the store

    [TranscriptEntry] is a plain (not frozen) dataclass: an object with
    identity whose fields can be assigned.  The [deque] and the [list] of
    a buffer are objects too.  Both kinds are kept in a store and named
    by their address; an address is never reused. *)

Abbreviation loc := nat.

Definition BUFFER_WINDOW_MS : Z := 30000.

Record TranscriptEntry := mkEntry { text : str; timestamp : Z }.

(** The slots of a [TranscriptBuffer] are assigned once, in [__init__]:
    the buffer is the pair of the addresses of its two containers.  The
    [asyncio.Lock] is left out: no coroutine awaits while it holds the
    lock, so the lock is free whenever it is acquired and every call of
    the service runs to its end without being interleaved. *)
Record TranscriptBuffer := mkBuffer { entries : loc; full_entries : loc }.

Record Service := mkService {
  entry_store : list TranscriptEntry;
  seq_store : list (list loc);
  _buffers : gmap str TranscriptBuffer
}.

#[global] Instance TranscriptEntry_eq_dec : EqDecision TranscriptEntry.
Proof. solve_decision. Defined.

(** [TranscriptBufferService()] *)
Definition new_service : Service := mkService [] [] ∅.

Definition alloc_entry (st : Service) (e : TranscriptEntry) : Service * loc :=
  (mkService (entry_store st ++ [e]) (seq_store st) (_buffers st),
   length (entry_store st)).

Definition alloc_seq (st : Service) (l : list loc) : Service * loc :=
  (mkService (entry_store st) (seq_store st ++ [l]) (_buffers st),
   length (seq_store st)).

Definition read_entry (st : Service) (a : loc) : option TranscriptEntry :=
  entry_store st !! a.

Definition read_seq (st : Service) (a : loc) : list loc :=
  default [] (seq_store st !! a).

Definition write_seq (st : Service) (a : loc) (l : list loc) : Service :=
  mkService (entry_store st) (<[a := l]> (seq_store st)) (_buffers st).

Definition set_buffer (st : Service) (meeting_id : str) (b : TranscriptBuffer)
  : Service :=
  mkService (entry_store st) (seq_store st) (<[meeting_id := b]> (_buffers st)).

(** [TranscriptBuffer()]: a new [deque()], then a new [[]]. *)
Definition new_buffer (st : Service) : Service * TranscriptBuffer :=
  let '(st1, d) := alloc_seq st [] in
  let '(st2, l) := alloc_seq st1 [] in
  (st2, mkBuffer d l).

(** ** The service *)

(** [init_meeting] *)
Definition init_meeting (st : Service) (meeting_id : str) : Service :=
  match _buffers st !! meeting_id with
  | Some _ => st
  | None => let '(st1, b) := new_buffer st in set_buffer st1 meeting_id b
  end.

(** The loop of [_prune] on the contents of the deque: [popleft] while
    the deque is not empty and its first entry is older than [cutoff]. *)
Fixpoint popleft_while (es : list TranscriptEntry) (cutoff : Z) (q : list loc)
  : list loc :=
  match q with
  | [] => []
  | a :: rest =>
      match es !! a with
      | Some e => if timestamp e <? cutoff then popleft_while es cutoff rest else q
      | None => q
      end
  end.

(** [_prune] *)
Definition _prune (st : Service) (buffer : TranscriptBuffer) (current_ts : Z)
  : Service :=
  let cutoff := current_ts - BUFFER_WINDOW_MS in
  write_seq st (entries buffer)
    (popleft_while (entry_store st) cutoff (read_seq st (entries buffer))).

(** [buffer.entries and buffer.entries[-1].text == normalized] *)
Definition last_text_is (st : Service) (buffer : TranscriptBuffer)
  (normalized : str) : bool :=
  match last (read_seq st (entries buffer)) with
  | None => false
  | Some a =>
      match read_entry st a with
      | Some e => bool_decide (text e = normalized)
      | None => false
      end
  end.

(** [_store_transcript]; the [label] only appears in the log lines, which
    are not modelled.  The result is the state after the call and the
    entry object returned, [None] for Python's [None]. *)
Definition _store_transcript (st : Service) (meeting_id text : str)
  (timestamp : Z) (allow_duplicates : bool) : Service * option loc :=
  let '(st, buffer) :=
    match _buffers st !! meeting_id with
    | Some b => (st, b)
    | None => let '(st1, b) := new_buffer st in (set_buffer st1 meeting_id b, b)
    end in
  let normalized := _normalize_text text in
  match normalized with
  | [] => (st, None)
  | _ =>
      if negb allow_duplicates && last_text_is st buffer normalized
      then (st, None)
      else
        let '(st, entry) := alloc_entry st (mkEntry normalized timestamp) in
        let st := _prune st buffer timestamp in
        let st := write_seq st (entries buffer)
                    (read_seq st (entries buffer) ++ [entry]) in
        let st := write_seq st (full_entries buffer)
                    (read_seq st (full_entries buffer) ++ [entry]) in
        (st, Some entry)
  end.

(** [add_final_transcript] *)
Definition add_final_transcript (st : Service) (meeting_id text : str)
  (timestamp : Z) : Service * option loc :=
  _store_transcript st meeting_id text timestamp false.

(** [add_partial_transcript] *)
Definition add_partial_transcript (st : Service) (meeting_id text : str)
  (timestamp : Z) : Service * option loc :=
  _store_transcript st meeting_id text timestamp true.

(** [clear_meeting]: [self._buffers.pop(meeting_id, None)], then both
    containers of the popped buffer are emptied in place. *)
Definition clear_meeting (st : Service) (meeting_id : str) : Service :=
  match _buffers st !! meeting_id with
  | Some buffer =>
      let st := mkService (entry_store st) (seq_store st)
                  (delete meeting_id (_buffers st)) in
      let st := write_seq st (entries buffer) [] in
      write_seq st (full_entries buffer) []
  | None => st
  end.

(** [get_recent_entries]; [now] is the value of [int(time.time() * 1000)]
    read by the call.  The result is the address of the list built by
    [list(buffer.entries)], or of the [[]] returned for an unknown id. *)
Definition get_recent_entries (st : Service) (meeting_id : str) (now : Z)
  : Service * loc :=
  match _buffers st !! meeting_id with
  | None => alloc_seq st []
  | Some buffer =>
      let st := _prune st buffer now in
      alloc_seq st (read_seq st (entries buffer))
  end.

(** [get_full_entries] *)
Definition get_full_entries (st : Service) (meeting_id : str) : Service * loc :=
  match _buffers st !! meeting_id with
  | None => alloc_seq st []
  | Some buffer => alloc_seq st (read_seq st (full_entries buffer))
  end.

(** ** What a caller can do with what it was handed *)

(** Any in-place change of a list object: [l.append(x)], [l.clear()],
    [l[i] = x], [del l[i]], [l.sort(...)], ... *)
Definition mutate_list (st : Service) (l : loc) (f : list loc → list loc)
  : Service :=
  write_seq st l (f (read_seq st l)).

(** Assignment to the fields of an entry object: [e.text = ...],
    [e.timestamp = ...]. *)
Definition mutate_entry (st : Service) (a : loc)
  (f : TranscriptEntry → TranscriptEntry) : Service :=
  mkService (alter f a (entry_store st)) (seq_store st) (_buffers st).

(** ** Views and traces *)

(** The addresses held by the [recent] view ([buffer.entries]) and by the
    [history] view ([buffer.full_entries]) of a meeting; empty when the
    meeting has no buffer. *)
Definition recent_view (st : Service) (meeting_id : str) : list loc :=
  match _buffers st !! meeting_id with
  | Some b => read_seq st (entries b)
  | None => []
  end.

Definition history_view (st : Service) (meeting_id : str) : list loc :=
  match _buffers st !! meeting_id with
  | Some b => read_seq st (full_entries b)
  | None => []
  end.

(** The entries, as values, behind a sequence of addresses. *)
Definition contents (st : Service) (l : list loc) : list (option TranscriptEntry) :=
  read_entry st <$> l.

(** One call of the public interface. *)
Inductive call :=
| InitMeeting (meeting_id : str)
| AddFinal (meeting_id text : str) (timestamp : Z)
| AddPartial (meeting_id text : str) (timestamp : Z)
| ClearMeeting (meeting_id : str)
| GetRecent (meeting_id : str) (now : Z)
| GetFull (meeting_id : str).

Definition run_call (st : Service) (c : call) : Service :=
  match c with
  | InitMeeting m => init_meeting st m
  | AddFinal m t ts => fst (add_final_transcript st m t ts)
  | AddPartial m t ts => fst (add_partial_transcript st m t ts)
  | ClearMeeting m => clear_meeting st m
  | GetRecent m now => fst (get_recent_entries st m now)
  | GetFull m => fst (get_full_entries st m)
  end.

(** The state after a sequence of calls on a new service. *)
Definition run (st : Service) (cs : list call) : Service :=
  foldl run_call st cs.

Definition reachable (st : Service) : Prop := ∃ cs, st = run new_service cs.

(** ** Well-formed states

    What every state reached through the interface satisfies: the two
    containers of a buffer are allocated and distinct, no two buffers
    share a container, the deque holds a suffix of the history, and the
    history holds allocated entries only. *)

Definition owns (b : TranscriptBuffer) (a : loc) : Prop :=
  a = entries b ∨ a = full_entries b.

Record wf (st : Service) : Prop := mkWf {
  wf_alloc : ∀ m b a, _buffers st !! m = Some b → owns b a →
             (a < length (seq_store st))%nat;
  wf_two : ∀ m b, _buffers st !! m = Some b → entries b ≠ full_entries b;
  wf_apart : ∀ m m' b b' a, m ≠ m' → _buffers st !! m = Some b →
             _buffers st !! m' = Some b' → owns b a → ¬ owns b' a;
  wf_suffix : ∀ m b, _buffers st !! m = Some b →
              read_seq st (entries b) `suffix_of` read_seq st (full_entries b);
  wf_entries : ∀ m b a, _buffers st !! m = Some b →
               a ∈ read_seq st (full_entries b) →
               (a < length (entry_store st))%nat
}.

(** ** Vocabulary of the statements *)

(** The steps of [_store_transcript], named: lines 47-50, the buffer of
    the meeting, created when missing. *)
Definition buffer_for (st : Service) (meeting_id : str)
  : Service * TranscriptBuffer :=
  match _buffers st !! meeting_id with
  | Some b => (st, b)
  | None => let '(st1, b) := new_buffer st in (set_buffer st1 meeting_id b, b)
  end.

(** Lines 62-67: the entry is built, the deque pruned, the entry appended
    to both containers. *)
Definition commit (st : Service) (buffer : TranscriptBuffer)
  (normalized : str) (timestamp : Z) : Service * loc :=
  let '(st, entry) := alloc_entry st (mkEntry normalized timestamp) in
  let st := _prune st buffer timestamp in
  let st := write_seq st (entries buffer)
              (read_seq st (entries buffer) ++ [entry]) in
  let st := write_seq st (full_entries buffer)
              (read_seq st (full_entries buffer) ++ [entry]) in
  (st, entry).

(** The entry at [a] exists and is older than [cutoff]. *)
Definition expired (es : list TranscriptEntry) (cutoff : Z) (a : loc) : Prop :=
  ∃ e, es !! a = Some e ∧ timestamp e < cutoff.

(** The text of the last entry of the [recent] view, if there is one. *)
Definition last_recent_text (st : Service) (meeting_id : str) : option str :=
  a ← last (recent_view st meeting_id);
  e ← read_entry st a;
  Some (text e).

(** Whether [_store_transcript] returns [None]: the normalized text is
    empty, or duplicates are refused and the text is that of the last
    entry of the deque. *)
Definition skipped (st : Service) (meeting_id : str) (normalized : str)
  (allow_duplicates : bool) : bool :=
  match normalized with
  | [] => true
  | _ => negb allow_duplicates
         && bool_decide (last_recent_text st meeting_id = Some normalized)
  end.

(** The text of the last entry of the [history] view: the entry committed
    last for the meeting. *)
Definition last_history_text (st : Service) (meeting_id : str) : option str :=
  a ← last (history_view st meeting_id);
  e ← read_entry st a;
  Some (text e).

(** Empty, or with a character that is not whitespace at both ends. *)
Definition tight_by (ws : N → bool) (u : str) : Prop :=
  u = [] ∨ ((∃ c u', u = c :: u' ∧ ws c = false)
            ∧ (∃ u' c, u = u' ++ [c] ∧ ws c = false)).

(** [r] is an allocated list that is a container of no buffer. *)
Definition caller_owned (st : Service) (r : loc) : Prop :=
  (r < length (seq_store st))%nat
  ∧ ∀ m b, _buffers st !! m = Some b → ¬ owns b r.

(** A call keeps the buffers it finds, or adds one made of two new
    containers, and frees no list. *)
Definition extends (st st' : Service) : Prop :=
  (length (seq_store st) ≤ length (seq_store st'))%nat
  ∧ ∀ m b, _buffers st' !! m = Some b →
      _buffers st !! m = Some b
      ∨ b = mkBuffer (length (seq_store st)) (S (length (seq_store st))).

(** [e.text = "changed"] *)
Definition set_text (new_text : str) (e : TranscriptEntry) : TranscriptEntry :=
  mkEntry new_text (timestamp e).

(** ** Scenarios *)

Definition meeting_a : str := codes "meeting-a".
Definition meeting_b : str := codes "meeting-b".

(** The state in which [meeting_a] holds one entry, [same.] at time 0. *)
Definition one_entry : Service :=
  run new_service [AddFinal meeting_a (codes "same") 0].

(** Three fragments, at 0, 10000 and 35000 ms. *)
Definition three_fragments : list call :=
  [AddFinal meeting_a (codes "one") 0;
   AddFinal meeting_a (codes "two") 10000;
   AddFinal meeting_a (codes "three") 35000].

(** One final fragment, then a retrieval late enough to empty the
    deque. *)
Definition pruned_by_retrieval : Service :=
  run new_service [AddFinal meeting_a (codes "same") 0;
                   GetRecent meeting_a 40000].

(** The adjacency scenario: a repeated text, another text, the first
    text again. *)
Definition adjacency_scenario : list call :=
  [AddFinal meeting_a (codes "same text.") 0;
   AddFinal meeting_a (codes "same text.") 100;
   AddFinal meeting_a (codes "different.") 200;
   AddFinal meeting_a (codes "same text.") 300].

(** ** Streams of fragments *)

(** The timestamps handed to [add_final_transcript] and
    [add_partial_transcript] for a meeting, in the order of the calls. *)
Fixpoint ingest_times (meeting_id : str) (cs : list call) : list Z :=
  match cs with
  | [] => []
  | AddFinal m _ ts :: rest | AddPartial m _ ts :: rest =>
      if bool_decide (m = meeting_id)
      then ts :: ingest_times meeting_id rest
      else ingest_times meeting_id rest
  | _ :: rest => ingest_times meeting_id rest
  end.

(** The timestamp of the entry at an address (0 where there is none). *)
Definition time_at (st : Service) (a : loc) : Z :=
  from_option timestamp 0 (read_entry st a).

(** Two entries in the order of their timestamps. *)
Definition by_time (st : Service) (a b : loc) : Prop :=
  time_at st a ≤ time_at st b.

(** The times that reach [_prune] for a meeting at the latest: the
    timestamps of its ingest calls and the clock readings of its
    retrievals of the recent entries, in the order of the calls. *)
Fixpoint clock_times (meeting_id : str) (cs : list call) : list Z :=
  match cs with
  | [] => []
  | AddFinal m _ t :: rest | AddPartial m _ t :: rest | GetRecent m t :: rest =>
      if bool_decide (m = meeting_id)
      then t :: clock_times meeting_id rest
      else clock_times meeting_id rest
  | _ :: rest => clock_times meeting_id rest
  end.

(** The part of the history that has left the deque is older than
    [bound]. *)
Definition pruned_below (st : Service) (meeting_id : str) (bound : Z) : Prop :=
  ∃ gone, history_view st meeting_id = gone ++ recent_view st meeting_id
          ∧ Forall (λ a, time_at st a < bound) gone.

(** ** The log of a meeting *)

(** What an ingest call hands back, with the entry it was built from. *)
Definition logged (r : option loc) (text : str) (timestamp : Z)
  : list (loc * TranscriptEntry) :=
  match r with
  | Some a => [(a, mkEntry (_normalize_text text) timestamp)]
  | None => []
  end.

(** The effect of one call, made in state [st], on the log of a meeting:
    an ingest call for the meeting adds the entry it returns, if it
    returns one, and [clear_meeting] for the meeting empties the log. *)
Definition log_call (meeting_id : str) (st : Service)
  (log : list (loc * TranscriptEntry)) (c : call)
  : list (loc * TranscriptEntry) :=
  match c with
  | AddFinal m t ts =>
      if decide (m = meeting_id)
      then log ++ logged (add_final_transcript st m t ts).2 t ts
      else log
  | AddPartial m t ts =>
      if decide (m = meeting_id)
      then log ++ logged (add_partial_transcript st m t ts).2 t ts
      else log
  | ClearMeeting m => if decide (m = meeting_id) then [] else log
  | _ => log
  end.

(** The entries returned by the ingest calls of a trace for a meeting
    since the last [clear_meeting] for it, oldest first. *)
Fixpoint ingest_log (meeting_id : str) (st : Service)
  (log : list (loc * TranscriptEntry)) (cs : list call)
  : list (loc * TranscriptEntry) :=
  match cs with
  | [] => log
  | c :: rest =>
      ingest_log meeting_id (run_call st c) (log_call meeting_id st log c) rest
  end.

(** [log] describes the history of the meeting entry by entry: the
    addresses in order, each once, and the value behind each. *)
Definition is_log (meeting_id : str) (st : Service)
  (log : list (loc * TranscriptEntry)) : Prop :=
  history_view st meeting_id = log.*1
  ∧ contents st log.*1 = Some <$> log.*2
  ∧ NoDup log.*1.

(** * The Zoom bot endpoints

    The part of [backend/app/api/zoom_ai.py] and
    [backend/app/core/security.py] that is plain Python: the loop of
    [ingest_detected_tasks] that turns the detected tasks of a request
    into task candidates, and the check of the bot key. *)

Module ZoomAI.

(** Truth value of an [Optional[str]]: [None] and [''] are false. *)
Definition truthy (a : option str) : bool :=
  match a with
  | Some (_ :: _) => true
  | _ => false
  end.

(** [a or b] for two optional strings. *)
Definition or_else (a b : option str) : option str :=
  if truthy a then a else b.

(** [a or ''] *)
Definition or_empty (a : option str) : str :=
  match a with
  | Some s => s
  | None => []
  end.

(** [str.lower] on one code point of the ASCII range. *)
Definition lower_code (c : N) : N :=
  if ((65 <=? c) && (c <=? 90))%N then (c + 32)%N else c.

(** [s.lower()] for ASCII text. *)
Definition lower (s : str) : str := map lower_code s.

(** [Literal['low', 'medium', 'high']] *)
Inductive Priority := low | medium | high.

Definition literal (p : Priority) : str :=
  match p with
  | low => codes "low"
  | medium => codes "medium"
  | high => codes "high"
  end.

(** [HTTPException(status_code, detail)] *)
Record HTTPException := mkHTTPException { status_code : Z; detail : str }.

Section Tasks.
(** The type of [float]: a confidence is passed on as it is. *)
Variable float : Type.

(** The fields of the pydantic model [DetectedTask]. *)
Record DetectedTask := mkDetectedTask {
  title : str;
  description : option str;
  assignee : option str;
  assigneeEmail : option str;
  priority : option Priority;
  deadline : option str;
  confidence : option float
}.

(** The [dict] appended to [normalized_tasks], key by key. *)
Record Candidate := mkCandidate {
  c_title : str;
  c_description : str;
  c_assignee : str;
  c_priority : str;
  c_deadline : option str;
  c_confidence : option float;
  c_detectedAt : Z
}.

(** [(item.priority or 'medium')]: a literal is never empty. *)
Definition priority_or_medium (item : DetectedTask) : str :=
  match priority item with
  | Some p => literal p
  | None => codes "medium"
  end.

(** The loop over [payload.tasks]: an item whose title is empty after
    [strip] is skipped ([continue]), any other is appended. *)
Fixpoint normalized_tasks (now_ms : Z) (tasks : list DetectedTask)
  : list Candidate :=
  match tasks with
  | [] => []
  | item :: rest =>
      let title := strip (or_empty (Some (title item))) in
      let description :=
        if truthy (description item)
        then strip (or_empty (description item)) else [] in
      let assignee_value :=
        strip (or_empty (or_else (assignee item) (assigneeEmail item))) in
      match title with
      | [] => normalized_tasks now_ms rest
      | _ =>
          mkCandidate title description assignee_value
            (lower (priority_or_medium item))
            (deadline item) (confidence item) now_ms
          :: normalized_tasks now_ms rest
      end
  end.

(** What [ingest_detected_tasks] does with the tasks of a request once
    the meeting record is there: the 422 error when no candidate is
    left, the candidates handed to [emit_task_detected] otherwise. *)
Definition task_candidates (now_ms : Z) (tasks : list DetectedTask)
  : HTTPException + list Candidate :=
  match normalized_tasks now_ms tasks with
  | [] => inl (mkHTTPException 422 (codes "No valid tasks supplied"))
  | candidates => inr candidates
  end.
End Tasks.

Arguments title {float}.
Arguments description {float}.
Arguments assignee {float}.
Arguments assigneeEmail {float}.
Arguments priority {float}.
Arguments deadline {float}.
Arguments confidence {float}.
Arguments c_title {float}.
Arguments c_description {float}.
Arguments c_assignee {float}.
Arguments c_priority {float}.
Arguments c_deadline {float}.
Arguments c_confidence {float}.
Arguments c_detectedAt {float}.
Arguments priority_or_medium {float}.
Arguments normalized_tasks {float}.
Arguments task_candidates {float}.

(** The outcome of a dependency: the value it returns, an
    [HTTPException], or a [TypeError] that escapes it. *)
Inductive outcome :=
| Returns (value : str)
| Raises (e : HTTPException)
| TypeError.

(** [secrets.compare_digest] on two [str]: equality, defined for ASCII
    strings only; with any other character it raises [TypeError]. *)
Definition is_ascii (s : str) : bool := forallb (λ c, (c <? 128)%N) s.

Definition compare_digest (a b : str) : option bool :=
  if is_ascii a && is_ascii b then Some (bool_decide (a = b)) else None.

(** [require_zoom_bot_key]: [expected_key] is what
    [os.getenv('ZOOM_BOT_API_KEY')] gives, [x_zoom_bot_key] the header,
    [None] when the request has none. *)
Definition require_zoom_bot_key (expected_key x_zoom_bot_key : option str)
  : outcome :=
  if negb (truthy expected_key)
  then Raises (mkHTTPException 500 (codes "ZOOM_BOT_API_KEY is not configured"))
  else
    if negb (truthy x_zoom_bot_key)
    then Raises (mkHTTPException 401 (codes "Invalid or missing bot API key"))
    else
      match compare_digest (or_empty x_zoom_bot_key) (or_empty expected_key) with
      | None => TypeError
      | Some false =>
          Raises (mkHTTPException 401 (codes "Invalid or missing bot API key"))
      | Some true => Returns (codes "zoom-bot")
      end.

End ZoomAI.

(** * Lemmas *)

Section StoreLemmas.
Implicit Types (st : Service) (a : loc) (l : list loc).

Lemma read_write_eq st a l :
  (a < length (seq_store st))%nat → read_seq (write_seq st a l) a = l.
Proof.
  intros Ha. unfold read_seq, write_seq; simpl.
  by rewrite list_lookup_insert_eq.
Qed.

Lemma read_write_ne st a a' l :
  a ≠ a' → read_seq (write_seq st a l) a' = read_seq st a'.
Proof.
  intros Hne. unfold read_seq, write_seq; simpl.
  by rewrite list_lookup_insert_ne.
Qed.

Lemma length_write st a l :
  length (seq_store (write_seq st a l)) = length (seq_store st).
Proof. apply length_insert. Qed.

Lemma read_alloc_old st l a :
  a ≠ length (seq_store st) →
  read_seq (alloc_seq st l).1 a = read_seq st a.
Proof.
  intros Hne. unfold read_seq; simpl.
  destruct (decide (a < length (seq_store st))%nat) as [Hlt|Hge].
  - by rewrite lookup_app_l.
  - rewrite !lookup_ge_None_2; [done | lia |].
    rewrite length_app; simpl; lia.
Qed.

Lemma read_alloc_new st l :
  read_seq (alloc_seq st l).1 (alloc_seq st l).2 = l.
Proof.
  unfold read_seq; simpl.
  by rewrite lookup_app_r, Nat.sub_diag.
Qed.

Lemma read_seq_unallocated st a :
  (length (seq_store st) ≤ a)%nat → read_seq st a = [].
Proof. intros H. unfold read_seq. by rewrite lookup_ge_None_2. Qed.
End StoreLemmas.

(** ** The steps of [_store_transcript] *)

Lemma store_unfold st m t ts dup :
  _store_transcript st m t ts dup =
  let '(st1, b) := buffer_for st m in
  match _normalize_text t with
  | [] => (st1, None)
  | _ =>
      if negb dup && last_text_is st1 b (_normalize_text t)
      then (st1, None)
      else let '(st2, a) := commit st1 b (_normalize_text t) ts in (st2, Some a)
  end.
Proof.
  unfold _store_transcript, buffer_for, commit.
  destruct (_buffers st !! m); simpl; destruct (_normalize_text t); try done;
    by destruct (negb dup && _).
Qed.

Section Pruning.
Implicit Types (es : list TranscriptEntry) (q : list loc).

Lemma popleft_while_split es cutoff q :
  ∃ gone, q = gone ++ popleft_while es cutoff q
          ∧ Forall (expired es cutoff) gone.
Proof.
  induction q as [|a q IH]; simpl.
  - by exists [].
  - destruct (es !! a) as [e|] eqn:He; [|by exists []].
    destruct (Z.ltb_spec (timestamp e) cutoff) as [Hlt|Hge]; [|by exists []].
    destruct IH as (gone & Hq & Hall). exists (a :: gone). split.
    + simpl. by f_equal.
    + constructor; [by exists e | done].
Qed.

Lemma popleft_while_suffix es cutoff q :
  popleft_while es cutoff q `suffix_of` q.
Proof.
  destruct (popleft_while_split es cutoff q) as (gone & Hq & _).
  by exists gone.
Qed.

Lemma popleft_while_head es cutoff q a rest :
  popleft_while es cutoff q = a :: rest → ¬ expired es cutoff a.
Proof.
  induction q as [|x q IH]; simpl; [done|].
  destruct (es !! x) as [e|] eqn:He.
  - destruct (Z.ltb_spec (timestamp e) cutoff) as [Hlt|Hge]; [done|].
    intros [= -> ->] (e' & He' & Hlt). simplify_eq. lia.
  - intros [= -> ->] (e' & He' & Hlt). simplify_eq.
Qed.

Lemma popleft_while_app_store es e cutoff q :
  Forall (λ a, (a < length es)%nat) q →
  popleft_while (es ++ [e]) cutoff q = popleft_while es cutoff q.
Proof.
  induction 1 as [|a q Ha Hq IH]; simpl; [done|].
  rewrite lookup_app_l by done.
  destruct (es !! a) as [e'|]; [|done].
  destruct (timestamp e' <? cutoff); [done|done].
Qed.

(** Nothing is popped when the first entry is not expired. *)
Lemma popleft_while_fresh es cutoff a q :
  ¬ expired es cutoff a → popleft_while es cutoff (a :: q) = a :: q.
Proof.
  intros Hn. simpl. destruct (es !! a) as [e|] eqn:He; [|done].
  destruct (Z.ltb_spec (timestamp e) cutoff); [|done].
  destruct Hn. by exists e.
Qed.
End Pruning.

Section Invariant.
Implicit Types (st : Service) (m : str) (b : TranscriptBuffer).

Lemma wf_new_service : wf new_service.
Proof. split; intros *; simpl; by rewrite ?lookup_empty. Qed.

Lemma new_buffer_eq st :
  new_buffer st =
  (mkService (entry_store st) (seq_store st ++ [[]; []]) (_buffers st),
   mkBuffer (length (seq_store st)) (S (length (seq_store st)))).
Proof.
  unfold new_buffer, alloc_seq; simpl.
  rewrite <- app_assoc, length_app; simpl.
  by rewrite Nat.add_1_r.
Qed.

Lemma read_new_buffer st a :
  read_seq (new_buffer st).1 a = read_seq st a.
Proof.
  rewrite new_buffer_eq. unfold read_seq; simpl.
  destruct (decide (a < length (seq_store st))%nat) as [Hlt|Hge].
  - by rewrite lookup_app_l.
  - rewrite lookup_app_r by lia.
    rewrite (lookup_ge_None_2 (seq_store st)) by lia.
    by destruct (a - length (seq_store st))%nat as [|[|?]].
Qed.

(** The buffer of [m] after [buffer_for]: found, or new and empty. *)
Lemma buffer_for_lookup st m :
  _buffers (buffer_for st m).1 !! m = Some (buffer_for st m).2.
Proof.
  unfold buffer_for. destruct (_buffers st !! m) eqn:Hm; [done|].
  rewrite new_buffer_eq; simpl. by rewrite lookup_insert_eq.
Qed.

Lemma buffer_for_lookup_ne st m m' :
  m ≠ m' → _buffers (buffer_for st m).1 !! m' = _buffers st !! m'.
Proof.
  intros Hne. unfold buffer_for. destruct (_buffers st !! m) eqn:Hm; [done|].
  rewrite new_buffer_eq; simpl. by rewrite lookup_insert_ne.
Qed.

Lemma buffer_for_known st m b :
  _buffers st !! m = Some b → buffer_for st m = (st, b).
Proof. intros Hm. unfold buffer_for. by rewrite Hm. Qed.

Lemma buffer_for_entry_store st m :
  entry_store (buffer_for st m).1 = entry_store st.
Proof.
  unfold buffer_for. destruct (_buffers st !! m); [done|].
  by rewrite new_buffer_eq.
Qed.

Lemma buffer_for_read st m a :
  read_seq (buffer_for st m).1 a = read_seq st a.
Proof.
  unfold buffer_for. destruct (_buffers st !! m); [done|].
  rewrite <- (read_new_buffer st a).
  by destruct (new_buffer st).
Qed.

Lemma buffer_for_recent st m m' :
  recent_view (buffer_for st m).1 m' = recent_view st m'.
Proof.
  unfold recent_view. destruct (decide (m = m')) as [<-|Hne].
  - rewrite buffer_for_lookup; simpl. rewrite buffer_for_read.
    unfold buffer_for. destruct (_buffers st !! m) eqn:Hm; [done|].
    rewrite new_buffer_eq; simpl.
    by apply read_seq_unallocated.
  - rewrite buffer_for_lookup_ne by done.
    destruct (_buffers st !! m'); [apply buffer_for_read | done].
Qed.

Lemma buffer_for_history st m m' :
  history_view (buffer_for st m).1 m' = history_view st m'.
Proof.
  unfold history_view. destruct (decide (m = m')) as [<-|Hne].
  - rewrite buffer_for_lookup; simpl. rewrite buffer_for_read.
    unfold buffer_for. destruct (_buffers st !! m) eqn:Hm; [done|].
    rewrite new_buffer_eq; simpl.
    apply read_seq_unallocated. lia.
  - rewrite buffer_for_lookup_ne by done.
    destruct (_buffers st !! m'); [apply buffer_for_read | done].
Qed.

Lemma wf_buffer_for st m : wf st → wf (buffer_for st m).1.
Proof.
  intros Hwf. unfold buffer_for.
  destruct (_buffers st !! m) as [b|] eqn:Hm; [done|].
  rewrite new_buffer_eq; simpl.
  set (n := length (seq_store st)).
  assert (Hold : ∀ m' b' a, _buffers st !! m' = Some b' → owns b' a →
                            (a < n)%nat) by apply Hwf.
  assert (Hread : ∀ a, read_seq (set_buffer (mkService (entry_store st)
             (seq_store st ++ [[]; []]) (_buffers st)) m (mkBuffer n (S n))) a
             = read_seq st a).
  { intros a. rewrite <- (read_new_buffer st a), new_buffer_eq. done. }
  split; simpl.
  - intros m' b' a Hb Ho. rewrite length_app; simpl.
    destruct (decide (m = m')) as [<-|Hne].
    + rewrite lookup_insert_eq in Hb. injection Hb as <-.
      destruct Ho as [->| ->]; simpl; lia.
    + rewrite lookup_insert_ne in Hb by done.
      specialize (Hold _ _ _ Hb Ho). lia.
  - intros m' b' Hb. destruct (decide (m = m')) as [<-|Hne].
    + rewrite lookup_insert_eq in Hb. injection Hb as <-. simpl. lia.
    + rewrite lookup_insert_ne in Hb by done. by eapply wf_two.
  - intros m1 m2 b1 b2 a Hne H1 H2 Ho1 Ho2.
    destruct (decide (m = m1)) as [<-|Hne1];
      destruct (decide (m = m2)) as [<-|Hne2]; try done.
    + rewrite lookup_insert_eq in H1. rewrite lookup_insert_ne in H2 by done.
      injection H1 as <-. specialize (Hold _ _ _ H2 Ho2).
      destruct Ho1 as [->| ->]; simpl in Hold; lia.
    + rewrite lookup_insert_eq in H2. rewrite lookup_insert_ne in H1 by done.
      injection H2 as <-. specialize (Hold _ _ _ H1 Ho1).
      destruct Ho2 as [->| ->]; simpl in Hold; lia.
    + rewrite lookup_insert_ne in H1, H2 by done.
      by eapply (wf_apart st Hwf m1 m2).
  - intros m' b' Hb. rewrite !Hread.
    destruct (decide (m = m')) as [<-|Hne].
    + rewrite lookup_insert_eq in Hb. injection Hb as <-. simpl.
      rewrite (read_seq_unallocated st n) by (unfold n; lia). apply suffix_nil.
    + rewrite lookup_insert_ne in Hb by done. by eapply wf_suffix.
  - intros m' b' a Hb Ha. rewrite Hread in Ha.
    destruct (decide (m = m')) as [<-|Hne].
    + rewrite lookup_insert_eq in Hb. injection Hb as <-. simpl in Ha.
      rewrite (read_seq_unallocated st (S n)) in Ha by (unfold n; lia).
      by apply not_elem_of_nil in Ha.
    + rewrite lookup_insert_ne in Hb by done. by eapply wf_entries.
Qed.
End Invariant.

Section Commit.
Variables (st : Service) (m : str) (b : TranscriptBuffer).
Variables (normalized : str) (ts : Z).
Hypothesis Hwf : wf st.
Hypothesis Hb : _buffers st !! m = Some b.

Let st' := (commit st b normalized ts).1.
Let a := (commit st b normalized ts).2.

Lemma commit_entry : a = length (entry_store st).
Proof. done. Qed.

Lemma commit_entry_store :
  entry_store st' = entry_store st ++ [mkEntry normalized ts].
Proof. done. Qed.

Lemma commit_buffers : _buffers st' = _buffers st.
Proof. done. Qed.

Lemma commit_length : length (seq_store st') = length (seq_store st).
Proof. subst st'. unfold commit; simpl. by rewrite !length_insert. Qed.

Lemma recent_allocated :
  Forall (λ x, (x < length (entry_store st))%nat) (read_seq st (entries b)).
Proof.
  apply Forall_forall. intros x Hx.
  eapply (wf_entries st Hwf m b); [done|].
  destruct (wf_suffix st Hwf m b Hb) as [k ->].
  apply elem_of_app. by right.
Qed.

Lemma commit_recent :
  read_seq st' (entries b) =
  popleft_while (entry_store st) (ts - BUFFER_WINDOW_MS)
    (read_seq st (entries b)) ++ [a].
Proof.
  pose proof (wf_alloc st Hwf m b (entries b) Hb (or_introl eq_refl)) as Hlt.
  pose proof (wf_two st Hwf m b Hb) as Hne.
  subst st' a. unfold commit, _prune; simpl.
  rewrite read_write_ne by done.
  rewrite read_write_eq by (by rewrite length_write).
  rewrite read_write_eq by done.
  unfold read_seq at 1; simpl. fold (read_seq st (entries b)).
  by rewrite popleft_while_app_store by apply recent_allocated.
Qed.

Lemma commit_history :
  read_seq st' (full_entries b) = read_seq st (full_entries b) ++ [a].
Proof.
  pose proof (wf_alloc st Hwf m b (full_entries b) Hb (or_intror eq_refl)) as Hlt.
  pose proof (wf_two st Hwf m b Hb) as Hne.
  subst st' a. unfold commit, _prune; simpl.
  rewrite read_write_eq by (by rewrite !length_write).
  by rewrite !read_write_ne by done.
Qed.

Lemma commit_frame x : ¬ owns b x → read_seq st' x = read_seq st x.
Proof.
  intros Hx. subst st'. unfold commit, _prune; simpl.
  rewrite !read_write_ne; [done | | |]; intros Heq; apply Hx;
    (by left) || (by right).
Qed.

Lemma wf_commit : wf st'.
Proof.
  split.
  - intros m' b' x Hb' Ho. rewrite commit_length.
    rewrite commit_buffers in Hb'. by eapply wf_alloc.
  - intros m' b' Hb'. rewrite commit_buffers in Hb'. by eapply wf_two.
  - intros m1 m2 b1 b2 x Hne H1 H2. rewrite commit_buffers in H1, H2.
    by eapply wf_apart.
  - intros m' b' Hb'. rewrite commit_buffers in Hb'.
    destruct (decide (m = m')) as [<-|Hne].
    + simplify_eq. rewrite commit_recent, commit_history.
      apply suffix_app.
      etrans; [apply popleft_while_suffix | by eapply wf_suffix].
    + rewrite !commit_frame by
        (eapply (wf_apart st Hwf m' m b' b); [congruence|done|done|];
         (by left) || (by right)).
      by eapply wf_suffix.
  - intros m' b' x Hb' Hx. rewrite commit_buffers in Hb'.
    rewrite commit_entry_store, length_app; simpl.
    destruct (decide (m = m')) as [<-|Hne].
    + simplify_eq. rewrite commit_history in Hx.
      apply elem_of_app in Hx as [Hx|Hx].
      * pose proof (wf_entries st Hwf m b x Hb Hx). lia.
      * apply list_elem_of_singleton in Hx. rewrite Hx, commit_entry. lia.
    + rewrite commit_frame in Hx
        by (eapply (wf_apart st Hwf m' m b' b); [congruence|done|done|by right]).
      pose proof (wf_entries st Hwf m' b' x Hb' Hx). lia.
Qed.
End Commit.

Section Frames.
Implicit Types (st : Service) (m : str) (b : TranscriptBuffer).

(** Allocating a list leaves every buffer as it is. *)
Lemma wf_alloc_seq st l : wf st → wf (alloc_seq st l).1.
Proof.
  intros Hwf.
  assert (Hread : ∀ m b x, _buffers st !! m = Some b → owns b x →
            read_seq (alloc_seq st l).1 x = read_seq st x).
  { intros m b x Hb Ho. apply read_alloc_old.
    pose proof (wf_alloc st Hwf m b x Hb Ho). lia. }
  split.
  - intros m b x Hb Ho. simpl. rewrite length_app; simpl.
    pose proof (wf_alloc st Hwf m b x Hb Ho). lia.
  - apply Hwf.
  - apply Hwf.
  - intros m b Hb.
    rewrite (Hread m b (entries b)), (Hread m b (full_entries b));
      [by eapply wf_suffix | done | by right | done | by left].
  - intros m b x Hb Hx.
    rewrite (Hread m b (full_entries b)) in Hx; [|done|by right].
    simpl. by eapply wf_entries.
Qed.

(** Shrinking the deque of a buffer to one of its suffixes. *)
Lemma wf_write_recent st m b l :
  wf st → _buffers st !! m = Some b →
  l `suffix_of` read_seq st (entries b) →
  wf (write_seq st (entries b) l).
Proof.
  intros Hwf Hb Hl.
  pose proof (wf_alloc st Hwf m b (entries b) Hb (or_introl eq_refl)) as Hlt.
  pose proof (wf_two st Hwf m b Hb) as Hne.
  split.
  - intros m' b' x Hb' Ho. simpl. rewrite length_insert. by eapply wf_alloc.
  - apply Hwf.
  - apply Hwf.
  - intros m' b' Hb'. simpl in Hb'. destruct (decide (m = m')) as [<-|Hm].
    + simplify_eq. rewrite read_write_eq, read_write_ne by done.
      etrans; [done | by eapply wf_suffix].
    + rewrite !read_write_ne; [by eapply wf_suffix | |];
        intros Heq;
        eapply (wf_apart st Hwf m m' b b' (entries b)); try done;
        (by left) || (by right).
  - intros m' b' x Hb' Hx. simpl in Hb'. simpl.
    destruct (decide (m = m')) as [<-|Hm].
    + simplify_eq. rewrite read_write_ne in Hx by done. by eapply wf_entries.
    + rewrite read_write_ne in Hx; [by eapply wf_entries|].
      intros Heq.
      eapply (wf_apart st Hwf m m' b b' (entries b)); try done;
        (by left) || (by right).
Qed.

Lemma wf_prune st m b t :
  wf st → _buffers st !! m = Some b → wf (_prune st b t).
Proof.
  intros Hwf Hb. eapply wf_write_recent; [done..|].
  apply popleft_while_suffix.
Qed.

Lemma wf_init_meeting st m : wf st → wf (init_meeting st m).
Proof.
  intros Hwf. pose proof (wf_buffer_for st m Hwf) as H.
  unfold buffer_for in H. unfold init_meeting.
  destruct (_buffers st !! m); [done|].
  by destruct (new_buffer st).
Qed.

Lemma wf_store st m t ts dup :
  wf st → wf (_store_transcript st m t ts dup).1.
Proof.
  intros Hwf. rewrite store_unfold.
  pose proof (wf_buffer_for st m Hwf) as Hwf1.
  pose proof (buffer_for_lookup st m) as Hb.
  destruct (buffer_for st m) as [st1 b]; simpl in Hwf1, Hb.
  destruct (_normalize_text t) as [|c n]; [done|].
  destruct (negb dup && _); [done|].
  pose proof (wf_commit st1 m b (c :: n) ts Hwf1 Hb) as Hc.
  by destruct (commit st1 b (c :: n) ts).
Qed.

Lemma wf_get_recent st m now : wf st → wf (get_recent_entries st m now).1.
Proof.
  intros Hwf. unfold get_recent_entries.
  destruct (_buffers st !! m) as [b|] eqn:Hb.
  - apply wf_alloc_seq. by eapply wf_prune.
  - by apply wf_alloc_seq.
Qed.

Lemma wf_get_full st m : wf st → wf (get_full_entries st m).1.
Proof.
  intros Hwf. unfold get_full_entries.
  destruct (_buffers st !! m); by apply wf_alloc_seq.
Qed.

(** What [clear_meeting] leaves of the containers of the other
    meetings. *)
Lemma clear_read_other st m m' b' x :
  wf st → m ≠ m' → _buffers st !! m' = Some b' → owns b' x →
  read_seq (clear_meeting st m) x = read_seq st x.
Proof.
  intros Hwf Hne Hb' Ho. unfold clear_meeting.
  destruct (_buffers st !! m) as [b|] eqn:Hb; [|done].
  rewrite !read_write_ne; [done | |]; intros Heq;
    eapply (wf_apart st Hwf m m' b b' x); try done;
    (by left) || (by right).
Qed.

Lemma clear_lookup st m m' :
  _buffers (clear_meeting st m) !! m' =
  if decide (m = m') then None else _buffers st !! m'.
Proof.
  unfold clear_meeting. destruct (_buffers st !! m) as [b|] eqn:Hb; simpl.
  - rewrite lookup_delete. by destruct (decide (m = m')).
  - destruct (decide (m = m')) as [<-|]; done.
Qed.

Lemma clear_length st m :
  length (seq_store (clear_meeting st m)) = length (seq_store st).
Proof.
  unfold clear_meeting. destruct (_buffers st !! m); [|done].
  simpl. by rewrite !length_insert.
Qed.

Lemma clear_entry_store st m :
  entry_store (clear_meeting st m) = entry_store st.
Proof. unfold clear_meeting. by destruct (_buffers st !! m). Qed.

Lemma wf_clear st m : wf st → wf (clear_meeting st m).
Proof.
  intros Hwf.
  assert (Hlk : ∀ m' b', _buffers (clear_meeting st m) !! m' = Some b' →
                         m ≠ m' ∧ _buffers st !! m' = Some b').
  { intros m' b'. rewrite clear_lookup. by destruct (decide (m = m')). }
  split.
  - intros m' b' x [Hne Hb']%Hlk Ho. rewrite clear_length. by eapply wf_alloc.
  - intros m' b' [Hne Hb']%Hlk. by eapply wf_two.
  - intros m1 m2 b1 b2 x Hne [_ H1]%Hlk [_ H2]%Hlk. by eapply wf_apart.
  - intros m' b' [Hne Hb']%Hlk.
    rewrite !(clear_read_other st m m' b') by (done || (by left) || (by right)).
    by eapply wf_suffix.
  - intros m' b' x [Hne Hb']%Hlk Hx. rewrite clear_entry_store.
    rewrite (clear_read_other st m m' b') in Hx by (done || (by right)).
    by eapply wf_entries.
Qed.

Lemma wf_run_call st c : wf st → wf (run_call st c).
Proof.
  intros Hwf. destruct c; simpl.
  - by apply wf_init_meeting.
  - by apply wf_store.
  - by apply wf_store.
  - by apply wf_clear.
  - by apply wf_get_recent.
  - by apply wf_get_full.
Qed.

Lemma wf_run st cs : wf st → wf (run st cs).
Proof.
  revert st. induction cs as [|c cs IH]; intros st Hwf; simpl; [done|].
  apply IH. by apply wf_run_call.
Qed.

Lemma reachable_wf st : reachable st → wf st.
Proof. intros [cs ->]. apply wf_run, wf_new_service. Qed.
End Frames.

(** ** The calls, on the views *)

Section StoreViews.
Variables (st : Service) (m t : str) (ts : Z) (dup : bool).
Let n := _normalize_text t.
Let st' := (_store_transcript st m t ts dup).1.
Let r := (_store_transcript st m t ts dup).2.

Lemma last_text_is_view :
  last_text_is (buffer_for st m).1 (buffer_for st m).2 n
  = bool_decide (last_recent_text st m = Some n).
Proof.
  unfold last_text_is, last_recent_text.
  rewrite <- (buffer_for_recent st m m). unfold recent_view.
  rewrite buffer_for_lookup. unfold read_entry.
  rewrite buffer_for_entry_store.
  destruct (last _) as [a|]; simpl; [|done].
  destruct (entry_store st !! a) as [e|]; simpl; [|done].
  apply bool_decide_ext. split; [by intros -> | by intros [= ->]].
Qed.

Lemma store_result :
  r = if skipped st m n dup then None else Some (length (entry_store st)).
Proof.
  subst r. rewrite store_unfold. unfold skipped.
  pose proof last_text_is_view as Hl.
  pose proof (buffer_for_entry_store st m) as He.
  destruct (buffer_for st m) as [st1 b]; simpl in Hl, He.
  fold n. fold n in Hl. destruct n as [|c n'] eqn:Hn; [done|].
  rewrite Hl. destruct (negb dup && _); [done|].
  simpl. by rewrite He.
Qed.

(** A skipped fragment changes no entry and no view of any meeting. *)
Lemma store_skipped m' :
  skipped st m n dup = true →
  r = None ∧ entry_store st' = entry_store st
  ∧ recent_view st' m' = recent_view st m'
  ∧ history_view st' m' = history_view st m'.
Proof.
  intros Hs. split; [by rewrite store_result, Hs|].
  subst st'. rewrite store_unfold.
  pose proof last_text_is_view as Hl.
  pose proof (buffer_for_entry_store st m) as He.
  pose proof (buffer_for_recent st m m') as Hr.
  pose proof (buffer_for_history st m m') as Hh.
  unfold skipped in Hs.
  destruct (buffer_for st m) as [st1 b]; simpl in Hl, He, Hr, Hh.
  fold n. fold n in Hl. destruct n as [|c n'] eqn:Hn; [done|].
  rewrite Hl, Hs. done.
Qed.

Hypothesis Hwf : wf st.

(** A fragment that is not skipped: one new entry object, appended to
    the pruned deque and to the history of its meeting. *)
Lemma store_stored :
  skipped st m n dup = false →
  r = Some (length (entry_store st))
  ∧ entry_store st' = entry_store st ++ [mkEntry n ts]
  ∧ recent_view st' m =
      popleft_while (entry_store st) (ts - BUFFER_WINDOW_MS)
        (recent_view st m) ++ [length (entry_store st)]
  ∧ history_view st' m = history_view st m ++ [length (entry_store st)]
  ∧ ∀ m', m ≠ m' → recent_view st' m' = recent_view st m'
                   ∧ history_view st' m' = history_view st m'.
Proof.
  intros Hs. split; [by rewrite store_result, Hs|].
  subst st'. rewrite store_unfold.
  pose proof last_text_is_view as Hl.
  pose proof (buffer_for_entry_store st m) as He.
  pose proof (buffer_for_recent st m) as Hr.
  pose proof (buffer_for_history st m) as Hh.
  pose proof (buffer_for_lookup st m) as Hb.
  pose proof (wf_buffer_for st m Hwf) as Hwf1.
  unfold skipped in Hs.
  destruct (buffer_for st m) as [st1 b]; simpl in Hl, He, Hr, Hh, Hb, Hwf1.
  fold n. fold n in Hl. destruct n as [|c n'] eqn:Hn; [done|].
  rewrite Hl, Hs.
  pose proof (commit_entry_store st1 b (c :: n') ts) as Ce.
  pose proof (commit_buffers st1 b (c :: n') ts) as Cb.
  pose proof (commit_recent st1 m b (c :: n') ts Hwf1 Hb) as Cr.
  pose proof (commit_history st1 m b (c :: n') ts Hwf1 Hb) as Ch.
  pose proof (commit_frame st1 b (c :: n') ts) as Cf.
  pose proof (commit_entry st1 b (c :: n') ts) as Ca.
  destruct (commit st1 b (c :: n') ts) as [st2 a]; simpl in *.
  rewrite Ce, He. split; [done|].
  unfold recent_view, history_view in *. rewrite Cb.
  specialize (Hr m) as Hrm. specialize (Hh m) as Hhm.
  rewrite Hb in Hrm, Hhm |- *.
  rewrite Cr, Ch, Hrm, Hhm, Ca, He. do 2 (split; [done|]).
  intros m' Hne. specialize (Hr m'). specialize (Hh m').
  destruct (_buffers st1 !! m') as [b'|] eqn:Hb'; [|done].
  rewrite !Cf; [done | |];
    eapply (wf_apart st1 Hwf1 m' m b' b); try done;
    (by left) || (by right).
Qed.
End StoreViews.

Section OtherViews.
Variables (st : Service) (m : str).

Lemma init_meeting_buffer_for : init_meeting st m = (buffer_for st m).1.
Proof.
  unfold init_meeting, buffer_for.
  destruct (_buffers st !! m); [done|]. by destruct (new_buffer st).
Qed.

Lemma init_views m' :
  entry_store (init_meeting st m) = entry_store st
  ∧ recent_view (init_meeting st m) m' = recent_view st m'
  ∧ history_view (init_meeting st m) m' = history_view st m'.
Proof.
  rewrite init_meeting_buffer_for.
  by rewrite buffer_for_entry_store, buffer_for_recent, buffer_for_history.
Qed.

Lemma clear_views_same :
  recent_view (clear_meeting st m) m = []
  ∧ history_view (clear_meeting st m) m = [].
Proof.
  unfold recent_view, history_view. rewrite clear_lookup.
  by destruct (decide (m = m)).
Qed.

Lemma clear_unknown : _buffers st !! m = None → clear_meeting st m = st.
Proof. intros H. unfold clear_meeting. by rewrite H. Qed.

Hypothesis Hwf : wf st.

Lemma clear_views_other m' :
  m ≠ m' →
  recent_view (clear_meeting st m) m' = recent_view st m'
  ∧ history_view (clear_meeting st m) m' = history_view st m'.
Proof.
  intros Hne. unfold recent_view, history_view. rewrite clear_lookup.
  destruct (decide (m = m')); [done|].
  destruct (_buffers st !! m') as [b'|] eqn:Hb'; [|done].
  by rewrite !(clear_read_other st m m' b') by (done || (by left) || (by right)).
Qed.

Lemma view_read_alloc l m' :
  recent_view (alloc_seq st l).1 m' = recent_view st m'
  ∧ history_view (alloc_seq st l).1 m' = history_view st m'.
Proof.
  unfold recent_view, history_view; simpl.
  destruct (_buffers st !! m') as [b'|] eqn:Hb'; [|done].
  pose proof (wf_alloc st Hwf m' b' (entries b') Hb' (or_introl eq_refl)).
  pose proof (wf_alloc st Hwf m' b' (full_entries b') Hb' (or_intror eq_refl)).
  split; apply (read_alloc_old st l); lia.
Qed.

Lemma get_full_views m' :
  entry_store (get_full_entries st m).1 = entry_store st
  ∧ recent_view (get_full_entries st m).1 m' = recent_view st m'
  ∧ history_view (get_full_entries st m).1 m' = history_view st m'.
Proof.
  unfold get_full_entries.
  destruct (_buffers st !! m); (split; [done | apply view_read_alloc]).
Qed.

(** The list handed out by [get_full_entries] is a new object holding
    the history as it is at the time of the call. *)
Lemma get_full_result :
  (get_full_entries st m).2 = length (seq_store st)
  ∧ read_seq (get_full_entries st m).1 (get_full_entries st m).2
    = history_view st m.
Proof.
  unfold get_full_entries, history_view.
  destruct (_buffers st !! m); (split; [done | apply read_alloc_new]).
Qed.
End OtherViews.

Section RecentViews.
Variables (st : Service) (m : str) (now : Z).
Hypothesis Hwf : wf st.

Let st' := (get_recent_entries st m now).1.
Let r := (get_recent_entries st m now).2.

Lemma prune_views b t m' :
  _buffers st !! m = Some b →
  recent_view (_prune st b t) m' =
    (if decide (m = m')
     then popleft_while (entry_store st) (t - BUFFER_WINDOW_MS)
            (recent_view st m')
     else recent_view st m')
  ∧ history_view (_prune st b t) m' = history_view st m'.
Proof.
  intros Hb. unfold recent_view, history_view, _prune; simpl.
  pose proof (wf_alloc st Hwf m b (entries b) Hb (or_introl eq_refl)) as Hlt.
  pose proof (wf_two st Hwf m b Hb) as Hne.
  destruct (decide (m = m')) as [<-|Hm].
  - rewrite Hb. by rewrite read_write_eq, read_write_ne.
  - destruct (_buffers st !! m') as [b'|] eqn:Hb'; [|done].
    rewrite !read_write_ne; [done | |]; intros Heq;
      eapply (wf_apart st Hwf m m' b b' (entries b)); try done;
      (by left) || (by right).
Qed.

Lemma get_recent_views m' :
  entry_store st' = entry_store st
  ∧ recent_view st' m' =
      (if decide (m = m')
       then popleft_while (entry_store st) (now - BUFFER_WINDOW_MS)
              (recent_view st m')
       else recent_view st m')
  ∧ history_view st' m' = history_view st m'.
Proof.
  subst st'. unfold get_recent_entries.
  destruct (_buffers st !! m) as [b|] eqn:Hb.
  - split; [done|].
    destruct (view_read_alloc (_prune st b now) (wf_prune st m b now Hwf Hb)
                (read_seq (_prune st b now) (entries b)) m') as [-> ->].
    by apply prune_views.
  - split; [done|].
    destruct (view_read_alloc st Hwf [] m') as [-> ->].
    split; [|done]. destruct (decide (m = m')) as [<-|]; [|done].
    unfold recent_view. by rewrite Hb.
Qed.

(** The list handed out by [get_recent_entries] is a new object holding
    the deque as it is after the pruning of the call. *)
Lemma get_recent_result :
  r = length (seq_store st) ∧ read_seq st' r = recent_view st' m.
Proof.
  subst st' r. unfold get_recent_entries.
  destruct (_buffers st !! m) as [b|] eqn:Hb.
  - split; [by rewrite <- (length_write st (entries b)
               (popleft_while (entry_store st) (now - BUFFER_WINDOW_MS)
                  (read_seq st (entries b))))|].
    rewrite read_alloc_new.
    destruct (view_read_alloc (_prune st b now) (wf_prune st m b now Hwf Hb)
                (read_seq (_prune st b now) (entries b)) m) as [-> _].
    unfold recent_view. simpl. by rewrite Hb.
  - split; [done|]. rewrite read_alloc_new.
    destruct (view_read_alloc st Hwf [] m) as [-> _].
    unfold recent_view. by rewrite Hb.
Qed.
End RecentViews.

(** ** Normalization *)

Section Whitespace.
Variable ws : N → bool.
Hypothesis ws_space : ws SPACE = true.

Implicit Types (s t u w : str) (c : N).

Local Abbreviation blank := (Forall (λ c, ws c = true)).
Local Abbreviation solid := (Forall (λ c, ws c = false)).

Local Abbreviation tight := (tight_by ws).

Lemma lstrip_blank_app pre u : blank pre → lstrip_by ws (pre ++ u) = lstrip_by ws u.
Proof. induction 1 as [|c pre Hc _ IH]; simpl; [done|]. by rewrite Hc. Qed.

Lemma lstrip_blank s : blank s → lstrip_by ws s = [].
Proof. induction 1 as [|c pre Hc _ IH]; simpl; [done|]. by rewrite Hc. Qed.

Lemma lstrip_split s : ∃ pre, blank pre ∧ s = pre ++ lstrip_by ws s.
Proof.
  induction s as [|c s IH]; simpl; [by exists []; split; [constructor|]|].
  destruct (ws c) eqn:Hc; [|by exists []; split; [constructor|]].
  destruct IH as (pre & Hpre & Hs). exists (c :: pre). split.
  - by constructor.
  - simpl. by f_equal.
Qed.

Lemma strip_unique pre u post :
  blank pre → blank post → tight u → strip_by ws (pre ++ u ++ post) = u.
Proof.
  intros Hpre Hpost Hu. unfold strip_by. rewrite lstrip_blank_app by done.
  destruct Hu as [->|[(c & u' & -> & Hc) (u'' & c' & Hu & Hc')]].
  - simpl. by rewrite (lstrip_blank post).
  - simpl. rewrite Hc. change (c :: u' ++ post) with ((c :: u') ++ post).
    rewrite rev_app_distr, lstrip_blank_app by (by apply Forall_rev).
    rewrite Hu, rev_app_distr; simpl. rewrite Hc'.
    change (c' :: rev u'') with ([c'] ++ rev u'').
    by rewrite rev_app_distr, rev_involutive.
Qed.

Lemma strip_split s :
  ∃ pre post, blank pre ∧ blank post ∧ s = pre ++ strip_by ws s ++ post.
Proof.
  destruct (lstrip_split s) as (pre & Hpre & Hs).
  destruct (lstrip_split (rev (lstrip_by ws s))) as (post & Hpost & Hr).
  exists pre, (rev post). split; [done|]. split; [by apply Forall_rev|].
  unfold strip_by. rewrite <- rev_app_distr, <- Hr, rev_involutive. done.
Qed.

(** [split] does not see whitespace at either end. *)
Lemma split_blank w s :
  blank s → split_by ws w s = split_by ws w [].
Proof.
  intros Hs. revert w. induction Hs as [|c s Hc _ IH]; intros w; [done|].
  simpl. rewrite Hc, (IH []). by destruct w.
Qed.

Lemma split_app_blank w s post :
  blank post → split_by ws w (s ++ post) = split_by ws w s.
Proof.
  intros Hpost. revert w. induction s as [|c s IH]; intros w.
  - by apply split_blank.
  - simpl. destruct (ws c); [|by rewrite IH]. rewrite IH. done.
Qed.

Lemma split_blank_app pre s :
  blank pre → split_by ws [] (pre ++ s) = split_by ws [] s.
Proof. induction 1 as [|c pre Hc _ IH]; simpl; [done|]. by rewrite Hc. Qed.

Lemma split_strip s : split_by ws [] (strip_by ws s) = split_by ws [] s.
Proof.
  destruct (strip_split s) as (pre & post & Hpre & Hpost & Hs).
  rewrite Hs at 2. by rewrite split_blank_app, split_app_blank.
Qed.

(** The words are not empty and hold no whitespace. *)
Lemma split_words w s :
  solid w →
  Forall (λ x, x ≠ [] ∧ solid x) (split_by ws w s).
Proof.
  revert w. induction s as [|c s IH]; intros w Hw; simpl.
  - destruct w; [constructor|]. constructor; [done|constructor].
  - destruct (ws c) eqn:Hc.
    + destruct w; [by apply IH|].
      constructor; [done|]. by apply IH.
    + apply IH. apply Forall_app. split; [done|].
      constructor; [done|constructor].
Qed.

Lemma tight_word x : x ≠ [] → solid x → tight x.
Proof.
  intros Hx Hs. right. split.
  - destruct x as [|c x]; [done|]. exists c, x. split; [done|].
    by inversion Hs.
  - destruct (exists_last Hx) as (x' & c & ->). exists x', c. split; [done|].
    apply Forall_app in Hs as [_ Hc]. by inversion Hc.
Qed.

Lemma tight_join words :
  Forall (λ x, x ≠ [] ∧ solid x) words → tight (join [SPACE] words).
Proof.
  induction 1 as [|x words [Hx Hs] Hall IH]; [by left|].
  destruct words as [|y words]; [by apply tight_word|].
  change (join [SPACE] (x :: y :: words))
    with (x ++ [SPACE] ++ join [SPACE] (y :: words)).
  destruct IH as [IH|[_ (u' & c & Hu & Hc)]].
  - inversion Hall as [|? ? [Hy _] _]; subst.
    simpl in IH. destruct words; [done|]. by destruct y.
  - right. split.
    + destruct x as [|c0 x]; [done|]. exists c0, (x ++ [SPACE] ++ join [SPACE] (y :: words)).
      split; [done|]. by inversion Hs.
    + exists (x ++ [SPACE] ++ u'), c. split; [|done].
      rewrite Hu. by rewrite <- !app_assoc.
Qed.

(** The collapsed text is the joined words, up to blanks at the ends:
    within a word ([w] not empty), and within a run of whitespace. *)
Lemma collapse_join s :
  (∀ w, w ≠ [] →
     ∃ post, blank post
       ∧ w ++ collapse_by ws false s = join [SPACE] (split_by ws w s) ++ post)
  ∧ (∃ post, blank post
       ∧ collapse_by ws true s = join [SPACE] (split_by ws [] s) ++ post).
Proof.
  induction s as [|c s [IHw IHr]]; simpl.
  - split.
    + intros w Hw. exists []. split; [constructor|]. by destruct w.
    + exists []. split; [constructor|done].
  - destruct (ws c) eqn:Hc.
    + split; [|done]. intros w Hw.
      destruct IHr as (post & Hpost & ->).
      destruct w as [|c0 w0]; [done|].
      destruct (split_by ws [] s) as [|x xs] eqn:Hsp.
      * exists (SPACE :: post). split; [by constructor|]. done.
      * exists post. split; [done|].
        change (join [SPACE] ((c0 :: w0) :: x :: xs))
          with ((c0 :: w0) ++ [SPACE] ++ join [SPACE] (x :: xs)).
        by rewrite <- !app_assoc.
    + split.
      * intros w Hw. destruct (IHw (w ++ [c])) as (post & Hpost & Heq).
        { by destruct w. }
        exists post. split; [done|]. rewrite <- Heq. by rewrite <- app_assoc.
      * destruct (IHw [c]) as (post & Hpost & Heq); [done|].
        exists post. split; [done|]. by rewrite <- Heq.
Qed.

(** Joining the words of the stripped text is collapsing the runs of
    whitespace and trimming. *)
Lemma join_split_collapse s :
  join [SPACE] (split_by ws [] (strip_by ws s))
  = strip_by ws (collapse_by ws false s).
Proof.
  rewrite split_strip.
  assert (Ht : tight (join [SPACE] (split_by ws [] s)))
    by (apply tight_join, split_words; constructor).
  destruct s as [|c s]; [done|]. simpl.
  destruct (collapse_join s) as [IHw (post & Hpost & Hr)].
  destruct (ws c) eqn:Hc.
  - rewrite Hr. simpl in Ht. rewrite Hc in Ht.
    symmetry. apply (strip_unique [SPACE]); [by repeat constructor|done..].
  - destruct (IHw [c]) as (post' & Hpost' & Heq); [done|].
    simpl in Heq. rewrite Heq. simpl in Ht. rewrite Hc in Ht. simpl in Ht.
    symmetry. apply (strip_unique []); [constructor|done..].
Qed.
End Whitespace.

Lemma isspace_SPACE : isspace SPACE = true.
Proof. reflexivity. Qed.

Lemma normalize_refines text : _normalize_text text = spec_normalize text.
Proof.
  unfold _normalize_text, spec_normalize, split, strip, collapse_whitespace.
  by rewrite (join_split_collapse isspace isspace_SPACE).
Qed.

(** ** Calls and traces *)

Section Traces.
Implicit Types (st : Service) (m : str) (c : call) (cs : list call).

Lemma run_app st cs cs' : run st (cs ++ cs') = run (run st cs) cs'.
Proof. apply foldl_app. Qed.

Lemma run_snoc st cs c : run st (cs ++ [c]) = run_call (run st cs) c.
Proof. by rewrite run_app. Qed.

Lemma wf_trace cs : wf (run new_service cs).
Proof. apply wf_run, wf_new_service. Qed.

(** No call removes or changes an entry object. *)
Lemma store_entry_store st m t ts dup :
  entry_store st `prefix_of` entry_store (_store_transcript st m t ts dup).1.
Proof.
  rewrite store_unfold.
  pose proof (buffer_for_entry_store st m) as He.
  destruct (buffer_for st m) as [st1 b]; simpl in He.
  destruct (_normalize_text t) as [|c n]; [simpl; by rewrite He|].
  destruct (negb dup && _); [simpl; by rewrite He|].
  simpl. rewrite He. by eexists.
Qed.

Lemma run_call_entry_store st c :
  entry_store st `prefix_of` entry_store (run_call st c).
Proof.
  destruct c as [m|m t ts|m t ts|m|m now|m]; simpl.
  - by destruct (init_views st m m) as [-> _].
  - apply store_entry_store.
  - apply store_entry_store.
  - by rewrite clear_entry_store.
  - unfold get_recent_entries. by destruct (_buffers st !! m).
  - unfold get_full_entries. by destruct (_buffers st !! m).
Qed.

Lemma run_entry_store st cs :
  entry_store st `prefix_of` entry_store (run st cs).
Proof.
  revert st. induction cs as [|c cs IH]; intros st; simpl; [done|].
  etrans; [apply run_call_entry_store | apply IH].
Qed.

Lemma read_entry_prefix st st' a e :
  entry_store st `prefix_of` entry_store st' →
  read_entry st a = Some e → read_entry st' a = Some e.
Proof.
  intros [k Hk] Ha. unfold read_entry in *. rewrite Hk.
  by apply lookup_app_l_Some.
Qed.

(** The effect of one call on the history of a meeting: nothing, one
    entry appended, or, for [clear_meeting] only, everything dropped. *)
Lemma run_call_history st c m :
  wf st → c ≠ ClearMeeting m →
  history_view st m `prefix_of` history_view (run_call st c) m.
Proof.
  intros Hwf Hc.
  destruct c as [m0|m0 t ts|m0 t ts|m0|m0 now|m0]; simpl.
  - by destruct (init_views st m0 m) as (_ & _ & ->).
  - unfold add_final_transcript.
    destruct (skipped st m0 (_normalize_text t) false) eqn:Hs.
    + by destruct (store_skipped st m0 t ts false m Hs) as (_ & _ & _ & ->).
    + destruct (store_stored st m0 t ts false Hwf Hs) as (_ & _ & _ & Hh & Ho).
      destruct (decide (m0 = m)) as [->|Hne].
      * rewrite Hh. by eexists.
      * by destruct (Ho m Hne) as [_ ->].
  - unfold add_partial_transcript.
    destruct (skipped st m0 (_normalize_text t) true) eqn:Hs.
    + by destruct (store_skipped st m0 t ts true m Hs) as (_ & _ & _ & ->).
    + destruct (store_stored st m0 t ts true Hwf Hs) as (_ & _ & _ & Hh & Ho).
      destruct (decide (m0 = m)) as [->|Hne].
      * rewrite Hh. by eexists.
      * by destruct (Ho m Hne) as [_ ->].
  - assert (m0 ≠ m) as Hne by congruence.
    by destruct (clear_views_other st m0 Hwf m Hne) as [_ ->].
  - by destruct (get_recent_views st m0 now Hwf m) as (_ & _ & ->).
  - by destruct (get_full_views st m0 Hwf m) as (_ & _ & ->).
Qed.

Lemma run_history st cs m :
  wf st → ClearMeeting m ∉ cs →
  history_view st m `prefix_of` history_view (run st cs) m.
Proof.
  revert st. induction cs as [|c cs IH]; intros st Hwf Hcs; simpl; [done|].
  apply not_elem_of_cons in Hcs as [Hc Hcs].
  etrans; [by apply run_call_history|].
  apply IH; [by apply wf_run_call | done].
Qed.

(** An allocated entry that is not in the history of a meeting never
    enters it: what is appended is always a new object. *)
Lemma run_call_foreign st c m a :
  wf st → (a < length (entry_store st))%nat → a ∉ history_view st m →
  a ∉ history_view (run_call st c) m.
Proof.
  intros Hwf Ha Hin.
  destruct c as [m0|m0 t ts|m0 t ts|m0|m0 now|m0]; simpl.
  - by destruct (init_views st m0 m) as (_ & _ & ->).
  - unfold add_final_transcript.
    destruct (skipped st m0 (_normalize_text t) false) eqn:Hs.
    + by destruct (store_skipped st m0 t ts false m Hs) as (_ & _ & _ & ->).
    + destruct (store_stored st m0 t ts false Hwf Hs) as (_ & _ & _ & Hh & Ho).
      destruct (decide (m0 = m)) as [->|Hne].
      * rewrite Hh. intros [?|Hx%list_elem_of_singleton]%elem_of_app; [done|lia].
      * by destruct (Ho m Hne) as [_ ->].
  - unfold add_partial_transcript.
    destruct (skipped st m0 (_normalize_text t) true) eqn:Hs.
    + by destruct (store_skipped st m0 t ts true m Hs) as (_ & _ & _ & ->).
    + destruct (store_stored st m0 t ts true Hwf Hs) as (_ & _ & _ & Hh & Ho).
      destruct (decide (m0 = m)) as [->|Hne].
      * rewrite Hh. intros [?|Hx%list_elem_of_singleton]%elem_of_app; [done|lia].
      * by destruct (Ho m Hne) as [_ ->].
  - destruct (decide (m0 = m)) as [->|Hne].
    + destruct (clear_views_same st m) as [_ ->]. apply not_elem_of_nil.
    + by destruct (clear_views_other st m0 Hwf m Hne) as [_ ->].
  - by destruct (get_recent_views st m0 now Hwf m) as (_ & _ & ->).
  - by destruct (get_full_views st m0 Hwf m) as (_ & _ & ->).
Qed.

Lemma run_foreign st cs m a :
  wf st → (a < length (entry_store st))%nat → a ∉ history_view st m →
  a ∉ history_view (run st cs) m.
Proof.
  revert st. induction cs as [|c cs IH]; intros st Hwf Ha Hin; simpl; [done|].
  apply IH; [by apply wf_run_call | | by apply run_call_foreign].
  destruct (run_call_entry_store st c) as [k ->].
  rewrite length_app. lia.
Qed.

Lemma recent_in_history st m a :
  wf st → a ∈ recent_view st m → a ∈ history_view st m.
Proof.
  intros Hwf. unfold recent_view, history_view.
  destruct (_buffers st !! m) as [b|] eqn:Hb; [|done].
  destruct (wf_suffix st Hwf m b Hb) as [k ->]. intros Ha.
  apply elem_of_app. by right.
Qed.

Lemma recent_suffix_history st m :
  wf st → recent_view st m `suffix_of` history_view st m.
Proof.
  intros Hwf. unfold recent_view, history_view.
  destruct (_buffers st !! m) as [b|] eqn:Hb; [by eapply wf_suffix | done].
Qed.

Lemma history_allocated st m a :
  wf st → a ∈ history_view st m → (a < length (entry_store st))%nat.
Proof.
  intros Hwf. unfold history_view.
  destruct (_buffers st !! m) as [b|] eqn:Hb.
  - by eapply wf_entries.
  - by intros ?%not_elem_of_nil.
Qed.
End Traces.

(** ** Helpers of the properties *)

Lemma stored_entry st m t ts dup :
  match _store_transcript st m t ts dup with
  | (st', Some a) => read_entry st' a = Some (mkEntry (_normalize_text t) ts)
  | (_, None) => True
  end.
Proof.
  rewrite store_unfold.
  destruct (buffer_for st m) as [st1 b].
  destruct (_normalize_text t) as [|c n] eqn:Hn; [done|].
  destruct (negb dup && _); [done|].
  unfold commit, read_entry; simpl.
  by rewrite lookup_app_r, Nat.sub_diag.
Qed.

Section Dedup.
Implicit Types (st : Service) (m : str).

Lemma last_recent_text_ext st st' m :
  entry_store st' = entry_store st → recent_view st' m = recent_view st m →
  last_recent_text st' m = last_recent_text st m.
Proof.
  intros He Hr. unfold last_recent_text, read_entry. by rewrite He, Hr.
Qed.

Lemma last_recent_text_Some st m n :
  last_recent_text st m = Some n ↔
  ∃ a e, last (recent_view st m) = Some a ∧ read_entry st a = Some e
         ∧ text e = n.
Proof.
  unfold last_recent_text. split.
  - destruct (last (recent_view st m)) as [a|]; simpl; [|done].
    destruct (read_entry st a) as [e|] eqn:He; simpl; [|done].
    intros [= <-]. exists a, e. by repeat split.
  - intros (a & e & -> & He & <-). simpl. by rewrite He.
Qed.

(** After a fragment has been stored, the last entry of the deque
    carries its normalized text. *)
Lemma last_recent_text_stored st m t ts dup :
  wf st → skipped st m (_normalize_text t) dup = false →
  last_recent_text (_store_transcript st m t ts dup).1 m
  = Some (_normalize_text t).
Proof.
  intros Hwf Hs.
  destruct (store_stored st m t ts dup Hwf Hs) as (Hr & _ & Hrec & _).
  pose proof (stored_entry st m t ts dup) as He.
  destruct (_store_transcript st m t ts dup) as [st1 r]; simpl in *.
  subst r. apply last_recent_text_Some.
  exists (length (entry_store st)), (mkEntry (_normalize_text t) ts).
  split; [|done]. rewrite Hrec. apply last_snoc.
Qed.

Lemma skipped_final_iff st m n :
  n ≠ [] →
  skipped st m n false = true ↔ last_recent_text st m = Some n.
Proof.
  intros Hn. unfold skipped. destruct n; [done|]. simpl.
  apply bool_decide_eq_true.
Qed.

Lemma skipped_partial st m n : n ≠ [] → skipped st m n true = false.
Proof. intros Hn. unfold skipped. by destruct n. Qed.
End Dedup.

Section Clear.
Implicit Types (st : Service) (m : str).

Lemma store_buffers st m t ts dup :
  _buffers (_store_transcript st m t ts dup).1 = _buffers (buffer_for st m).1.
Proof.
  rewrite store_unfold. destruct (buffer_for st m) as [st1 b].
  destruct (_normalize_text t); [done|].
  by destruct (negb dup && _).
Qed.

(** The buffer made for a meeting that has none holds two new
    containers. *)
Lemma buffer_for_new st m :
  _buffers st !! m = None →
  (buffer_for st m).2
  = mkBuffer (length (seq_store st)) (S (length (seq_store st))).
Proof.
  intros Hm. unfold buffer_for. rewrite Hm. by rewrite new_buffer_eq.
Qed.

Lemma unknown_views st m :
  _buffers st !! m = None → recent_view st m = [] ∧ history_view st m = [].
Proof. intros Hm. unfold recent_view, history_view. by rewrite Hm. Qed.

Lemma empty_recent_result st m now :
  wf st → recent_view st m = [] →
  read_seq (get_recent_entries st m now).1 (get_recent_entries st m now).2
  = [].
Proof.
  intros Hwf Hr. destruct (get_recent_result st m now Hwf) as [_ ->].
  destruct (get_recent_views st m now Hwf m) as (_ & -> & _).
  destruct (decide (m = m)); [|done]. by rewrite Hr.
Qed.

Lemma empty_full_result st m :
  history_view st m = [] →
  read_seq (get_full_entries st m).1 (get_full_entries st m).2 = [].
Proof. intros Hh. by destruct (get_full_result st m) as [_ ->]. Qed.
End Clear.

Lemma contents_kept st st' m :
  wf st → entry_store st `prefix_of` entry_store st' →
  contents st' (history_view st m) = contents st (history_view st m).
Proof.
  intros Hwf Hpre. unfold contents. apply list_fmap_ext. intros i a Ha.
  assert (a ∈ history_view st m) as Hin by (by eapply list_elem_of_lookup_2).
  apply (history_allocated st m a Hwf) in Hin.
  destruct (lookup_lt_is_Some_2 (entry_store st) a Hin) as [e He].
  rewrite (read_entry_prefix st st' a e Hpre He). by symmetry.
Qed.

(** ** Lists owned by a caller *)

Section CallerLists.
Variables (r : loc) (l : list loc).
Implicit Types (st : Service) (m : str) (b : TranscriptBuffer).

Lemma write_write_comm st a x :
  a ≠ r → write_seq (write_seq st r l) a x = write_seq (write_seq st a x) r l.
Proof.
  intros Hne. unfold write_seq; simpl. f_equal.
  by apply list_insert_insert_ne.
Qed.

Lemma alloc_seq_write st x :
  (r < length (seq_store st))%nat →
  alloc_seq (write_seq st r l) x
  = (write_seq (alloc_seq st x).1 r l, (alloc_seq st x).2).
Proof.
  intros Hlt. unfold alloc_seq, write_seq; simpl.
  by rewrite length_insert, insert_app_l.
Qed.

Lemma prune_write st b t :
  entries b ≠ r → _prune (write_seq st r l) b t = write_seq (_prune st b t) r l.
Proof.
  intros Hne. unfold _prune. rewrite read_write_ne by done.
  by rewrite write_write_comm.
Qed.

Lemma last_text_is_write st b n :
  entries b ≠ r → last_text_is (write_seq st r l) b n = last_text_is st b n.
Proof. intros Hne. unfold last_text_is. by rewrite read_write_ne. Qed.

Lemma buffer_for_write st m :
  (r < length (seq_store st))%nat →
  buffer_for (write_seq st r l) m
  = (write_seq (buffer_for st m).1 r l, (buffer_for st m).2).
Proof.
  intros Hlt. unfold buffer_for.
  change (_buffers (write_seq st r l)) with (_buffers st).
  destruct (_buffers st !! m); [done|].
  rewrite !new_buffer_eq. unfold write_seq, set_buffer; simpl.
  by rewrite length_insert, insert_app_l.
Qed.

Lemma commit_write st b n ts :
  entries b ≠ r → full_entries b ≠ r →
  commit (write_seq st r l) b n ts
  = (write_seq (commit st b n ts).1 r l, (commit st b n ts).2).
Proof.
  intros He Hf. unfold commit, alloc_entry; simpl.
  set (st0 := mkService (entry_store st ++ [mkEntry n ts]) (seq_store st)
                (_buffers st)).
  change (mkService _ (<[r:=l]> (seq_store st)) _) with (write_seq st0 r l).
  rewrite prune_write by done.
  rewrite (read_write_ne _ r (entries b)) by done.
  rewrite write_write_comm by done.
  rewrite (read_write_ne _ r (full_entries b)) by done.
  by rewrite write_write_comm.
Qed.

(** The containers of the buffer that [buffer_for] yields are not
    [r]. *)
Lemma buffer_for_owned st m x :
  caller_owned st r → owns (buffer_for st m).2 x → x ≠ r.
Proof.
  intros [Hlt Hfree] Ho ->. unfold buffer_for in Ho.
  destruct (_buffers st !! m) as [b|] eqn:Hb.
  - by apply (Hfree m b).
  - rewrite new_buffer_eq in Ho. simpl in Ho.
    destruct Ho as [->| ->]; simpl in Hlt; lia.
Qed.

Lemma store_write st m t ts dup :
  caller_owned st r →
  _store_transcript (write_seq st r l) m t ts dup
  = (write_seq (_store_transcript st m t ts dup).1 r l,
     (_store_transcript st m t ts dup).2).
Proof.
  intros Hfree. rewrite !store_unfold.
  rewrite buffer_for_write by apply Hfree.
  pose proof (buffer_for_owned st m _ Hfree (or_introl eq_refl)) as He.
  pose proof (buffer_for_owned st m _ Hfree (or_intror eq_refl)) as Hf.
  destruct (buffer_for st m) as [st1 b]; cbn [fst snd] in *.
  destruct (_normalize_text t) as [|c n]; [done|].
  rewrite last_text_is_write by done.
  destruct (negb dup && _); [done|].
  rewrite commit_write by done.
  by destruct (commit st1 b (c :: n) ts).
Qed.

Lemma run_call_write st c :
  caller_owned st r →
  run_call (write_seq st r l) c = write_seq (run_call st c) r l.
Proof.
  intros Hfree. destruct c as [m|m t ts|m t ts|m|m now|m]; simpl.
  - rewrite !init_meeting_buffer_for.
    by rewrite buffer_for_write by apply Hfree.
  - unfold add_final_transcript. by rewrite store_write.
  - unfold add_partial_transcript. by rewrite store_write.
  - unfold clear_meeting; simpl.
    destruct (_buffers st !! m) as [b|] eqn:Hb; [|done].
    destruct Hfree as [_ Hfree].
    assert (entries b ≠ r) as He by (intros <-; apply (Hfree m b Hb); by left).
    assert (full_entries b ≠ r) as Hf
      by (intros <-; apply (Hfree m b Hb); by right).
    change (mkService (entry_store st) (<[r:=l]> (seq_store st))
              (delete m (_buffers st)))
      with (write_seq (mkService (entry_store st) (seq_store st)
                         (delete m (_buffers st))) r l).
    by rewrite !write_write_comm.
  - unfold get_recent_entries; simpl.
    destruct (_buffers st !! m) as [b|] eqn:Hb.
    + destruct Hfree as [Hlt Hfree].
      assert (entries b ≠ r) as He by (intros <-; apply (Hfree m b Hb); by left).
      rewrite prune_write, read_write_ne by done.
      rewrite alloc_seq_write; [done|].
      unfold _prune. by rewrite length_write.
    + rewrite alloc_seq_write; [done|apply Hfree].
  - unfold get_full_entries; simpl.
    destruct (_buffers st !! m) as [b|] eqn:Hb.
    + destruct Hfree as [Hlt Hfree].
      assert (full_entries b ≠ r) as Hf
        by (intros <-; apply (Hfree m b Hb); by right).
      rewrite read_write_ne by done. by rewrite alloc_seq_write.
    + rewrite alloc_seq_write; [done|apply Hfree].
Qed.

(** The result of a retrieval is not touched either. *)
Lemma get_recent_write st m now :
  caller_owned st r →
  get_recent_entries (write_seq st r l) m now
  = (write_seq (get_recent_entries st m now).1 r l,
     (get_recent_entries st m now).2).
Proof.
  intros [Hlt Hfree]. unfold get_recent_entries; simpl.
  destruct (_buffers st !! m) as [b|] eqn:Hb.
  - assert (entries b ≠ r) as He by (intros <-; apply (Hfree m b Hb); by left).
    rewrite prune_write, read_write_ne by done.
    rewrite alloc_seq_write; [done|].
    unfold _prune. by rewrite length_write.
  - by rewrite alloc_seq_write.
Qed.

Lemma get_full_write st m :
  caller_owned st r →
  get_full_entries (write_seq st r l) m
  = (write_seq (get_full_entries st m).1 r l, (get_full_entries st m).2).
Proof.
  intros [Hlt Hfree]. unfold get_full_entries; simpl.
  destruct (_buffers st !! m) as [b|] eqn:Hb.
  - assert (full_entries b ≠ r) as Hf
      by (intros <-; apply (Hfree m b Hb); by right).
    rewrite read_write_ne by done. by rewrite alloc_seq_write.
  - by rewrite alloc_seq_write.
Qed.

Lemma write_views st m :
  caller_owned st r →
  recent_view (write_seq st r l) m = recent_view st m
  ∧ history_view (write_seq st r l) m = history_view st m.
Proof.
  intros [_ Hfree]. unfold recent_view, history_view; simpl.
  destruct (_buffers st !! m) as [b|] eqn:Hb; [|done].
  rewrite !read_write_ne; [done | |]; intros Heq; apply (Hfree m b Hb);
    (by left) || (by right).
Qed.
End CallerLists.

Section CallerOwned.
Implicit Types (st : Service) (m : str) (r : loc).

Lemma extends_buffer_for st m : extends st (buffer_for st m).1.
Proof.
  unfold buffer_for. destruct (_buffers st !! m) as [b|] eqn:Hb.
  - split; [done|]. intros; by left.
  - rewrite new_buffer_eq. unfold extends; simpl. split.
    + rewrite length_app; simpl. lia.
    + intros m' b' Hb'. destruct (decide (m = m')) as [<-|Hne].
      * rewrite lookup_insert_eq in Hb'. right. congruence.
      * rewrite lookup_insert_ne in Hb' by done. by left.
Qed.

Lemma store_length st m t ts dup :
  length (seq_store (_store_transcript st m t ts dup).1)
  = length (seq_store (buffer_for st m).1).
Proof.
  rewrite store_unfold. destruct (buffer_for st m) as [st1 b].
  destruct (_normalize_text t) as [|c n]; [done|].
  destruct (negb dup && _); [done|].
  pose proof (commit_length st1 b (c :: n) ts) as Hl.
  by destruct (commit st1 b (c :: n) ts).
Qed.

Lemma extends_store st m t ts dup :
  extends st (_store_transcript st m t ts dup).1.
Proof.
  destruct (extends_buffer_for st m) as [Hl Hb].
  split; [by rewrite store_length | by rewrite store_buffers].
Qed.

Lemma extends_alloc_seq st st' x :
  extends st st' → extends st (alloc_seq st' x).1.
Proof.
  intros [Hl Hb]. split; [|done]. simpl. rewrite length_app. lia.
Qed.

Lemma extends_run_call st c : extends st (run_call st c).
Proof.
  destruct c as [m|m t ts|m t ts|m|m now|m]; simpl.
  - rewrite init_meeting_buffer_for. apply extends_buffer_for.
  - apply extends_store.
  - apply extends_store.
  - split; [by rewrite clear_length|].
    intros m' b. rewrite clear_lookup.
    destruct (decide (m = m')); [done | by left].
  - unfold get_recent_entries. destruct (_buffers st !! m) as [b|].
    + apply extends_alloc_seq. split; [|by left].
      unfold _prune. by rewrite length_write.
    + apply extends_alloc_seq. split; [done | by left].
  - unfold get_full_entries.
    destruct (_buffers st !! m); apply extends_alloc_seq;
      (split; [done | by left]).
Qed.

Lemma caller_owned_extends st st' r :
  extends st st' → caller_owned st r → caller_owned st' r.
Proof.
  intros [Hl Hb] [Hlt Hfree]. split; [lia|].
  intros m b [Hold| ->]%Hb; [by eapply Hfree|].
  intros [->| ->]; simpl in Hlt; lia.
Qed.

(** The list built by a retrieval belongs to the caller. *)
Lemma get_recent_caller_owned st m now :
  wf st →
  caller_owned (get_recent_entries st m now).1 (get_recent_entries st m now).2.
Proof.
  intros Hwf. destruct (get_recent_result st m now Hwf) as [-> _].
  pose proof (wf_alloc st Hwf) as Hal.
  unfold get_recent_entries. destruct (_buffers st !! m) as [b0|];
    (split; [simpl; rewrite length_app, ?length_insert; simpl; lia|]);
    intros m' b Hb Ho; specialize (Hal m' b _ Hb Ho); lia.
Qed.

Lemma get_full_caller_owned st m :
  wf st →
  caller_owned (get_full_entries st m).1 (get_full_entries st m).2.
Proof.
  intros Hwf. destruct (get_full_result st m) as [-> _].
  pose proof (wf_alloc st Hwf) as Hal.
  unfold get_full_entries. destruct (_buffers st !! m) as [b0|];
    (split; [simpl; rewrite length_app; simpl; lia|]);
    intros m' b Hb Ho; specialize (Hal m' b _ Hb Ho); lia.
Qed.

Lemma run_write st r l cs :
  caller_owned st r → run (write_seq st r l) cs = write_seq (run st cs) r l.
Proof.
  revert st. induction cs as [|c cs IH]; intros st Hfree; simpl; [done|].
  rewrite run_call_write by done.
  apply IH. eapply caller_owned_extends; [apply extends_run_call | done].
Qed.

Lemma caller_owned_run st r cs :
  caller_owned st r → caller_owned (run st cs) r.
Proof.
  revert st. induction cs as [|c cs IH]; intros st Hfree; simpl; [done|].
  apply IH. eapply caller_owned_extends; [apply extends_run_call | done].
Qed.

(** Changing a list of the caller in place is not seen by the service:
    not now, and not after any further calls. *)
Lemma caller_list_unseen st r f cs m now :
  caller_owned st r →
  let st2 := mutate_list st r f in
  let before := run st cs in
  let after := run st2 cs in
  entry_store st2 = entry_store st
  ∧ _buffers st2 = _buffers st
  ∧ recent_view after m = recent_view before m
  ∧ history_view after m = history_view before m
  ∧ entry_store after = entry_store before
  ∧ read_seq (get_recent_entries after m now).1
      (get_recent_entries after m now).2
    = read_seq (get_recent_entries before m now).1
        (get_recent_entries before m now).2
  ∧ read_seq (get_full_entries after m).1 (get_full_entries after m).2
    = read_seq (get_full_entries before m).1 (get_full_entries before m).2.
Proof.
  intros Hfree st2 before after.
  split; [done|]. split; [done|].
  assert (Hafter : after = write_seq before r (f (read_seq st r)))
    by (by apply run_write).
  pose proof (caller_owned_run st r cs Hfree) as Hfree'. fold before in Hfree'.
  rewrite Hafter.
  destruct (write_views r (f (read_seq st r)) before m Hfree') as [-> ->].
  split; [done|]. split; [done|]. split; [done|].
  rewrite get_recent_write, get_full_write by done. simpl.
  split; apply read_write_ne.
  - destruct Hfree' as [Hlt' _].
    assert (Hge : (length (seq_store before)
                   ≤ (get_recent_entries before m now).2)%nat).
    { unfold get_recent_entries. destruct (_buffers before !! m); simpl;
        rewrite ?length_insert; lia. }
    lia.
  - destruct Hfree' as [Hlt' _].
    assert (Hge : (length (seq_store before)
                   ≤ (get_full_entries before m).2)%nat).
    { unfold get_full_entries. by destruct (_buffers before !! m). }
    lia.
Qed.
End CallerOwned.

Lemma retrieval_entry_store st m now :
  entry_store (get_recent_entries st m now).1 = entry_store st
  ∧ entry_store (get_full_entries st m).1 = entry_store st.
Proof.
  unfold get_recent_entries, get_full_entries.
  by destruct (_buffers st !! m).
Qed.

(** * Properties *)

(** C1, as stated, fails for the entries themselves: the list returned
    by [get_full_entries] holds the entry object of the buffer, and
    assigning to its [text] changes what the next retrieval returns. *)
Lemma entry_mutation_counterexample :
  ¬ (let got := get_full_entries one_entry meeting_a in
     let changed := mutate_entry got.1 0 (set_text (codes "changed")) in
     let again := get_full_entries changed meeting_a in
     0%nat ∈ read_seq got.1 got.2 →
     contents again.1 (read_seq again.1 again.2)
     = contents got.1 (read_seq got.1 got.2)).
Proof.
  intros H. cbv zeta in H.
  assert (Hin : 0%nat ∈ read_seq (get_full_entries one_entry meeting_a).1
                  (get_full_entries one_entry meeting_a).2)
    by (vm_compute; by left).
  specialize (H Hin). vm_compute in H. discriminate.
Qed.

(** C1, amended: the sequence returned by [get_recent_entries] or
    [get_full_entries] is a new list, no container of any buffer, that
    holds the entry objects of the view at the time of the call; changing
    that list in place (adding, removing, replacing or reordering its
    elements) changes neither the entries nor the buffers, and every
    later retrieval, after any further calls, returns what it would have
    returned without the change. *)
Theorem returned_list_is_a_copy cs m now f cs' m' now' :
  let st := run new_service cs in
  (let got := get_recent_entries st m now in
   let before := run got.1 cs' in
   let after := run (mutate_list got.1 got.2 f) cs' in
   read_seq got.1 got.2 = recent_view got.1 m
   ∧ caller_owned got.1 got.2
   ∧ entry_store after = entry_store before
   ∧ recent_view after m' = recent_view before m'
   ∧ history_view after m' = history_view before m'
   ∧ contents (get_recent_entries after m' now').1
       (read_seq (get_recent_entries after m' now').1
          (get_recent_entries after m' now').2)
     = contents (get_recent_entries before m' now').1
         (read_seq (get_recent_entries before m' now').1
            (get_recent_entries before m' now').2)
   ∧ contents (get_full_entries after m').1
       (read_seq (get_full_entries after m').1 (get_full_entries after m').2)
     = contents (get_full_entries before m').1
         (read_seq (get_full_entries before m').1 (get_full_entries before m').2))
  ∧ (let got := get_full_entries st m in
     let before := run got.1 cs' in
     let after := run (mutate_list got.1 got.2 f) cs' in
     read_seq got.1 got.2 = history_view got.1 m
     ∧ caller_owned got.1 got.2
     ∧ entry_store after = entry_store before
     ∧ recent_view after m' = recent_view before m'
     ∧ history_view after m' = history_view before m'
     ∧ contents (get_recent_entries after m' now').1
         (read_seq (get_recent_entries after m' now').1
            (get_recent_entries after m' now').2)
       = contents (get_recent_entries before m' now').1
           (read_seq (get_recent_entries before m' now').1
              (get_recent_entries before m' now').2)
     ∧ contents (get_full_entries after m').1
         (read_seq (get_full_entries after m').1 (get_full_entries after m').2)
       = contents (get_full_entries before m').1
           (read_seq (get_full_entries before m').1
              (get_full_entries before m').2)).
Proof.
  intros st. pose proof (wf_trace cs) as Hwf. fold st in Hwf.
  assert (Hgen : ∀ st1 r, caller_owned st1 r →
    let before := run st1 cs' in
    let after := run (mutate_list st1 r f) cs' in
    entry_store after = entry_store before
    ∧ recent_view after m' = recent_view before m'
    ∧ history_view after m' = history_view before m'
    ∧ contents (get_recent_entries after m' now').1
        (read_seq (get_recent_entries after m' now').1
           (get_recent_entries after m' now').2)
      = contents (get_recent_entries before m' now').1
          (read_seq (get_recent_entries before m' now').1
             (get_recent_entries before m' now').2)
    ∧ contents (get_full_entries after m').1
        (read_seq (get_full_entries after m').1 (get_full_entries after m').2)
      = contents (get_full_entries before m').1
          (read_seq (get_full_entries before m').1
             (get_full_entries before m').2)).
  { intros st1 r Hown before after.
    destruct (caller_list_unseen st1 r f cs' m' now' Hown)
      as (_ & _ & Hr & Hh & He & Hgr & Hgf).
    fold before after in Hr, Hh, He, Hgr, Hgf.
    split; [done|]. split; [done|]. split; [done|].
    unfold contents, read_entry.
    destruct (retrieval_entry_store after m' now') as [-> ->].
    destruct (retrieval_entry_store before m' now') as [-> ->].
    by rewrite Hgr, Hgf, He. }
  split.
  - intros got before after.
    pose proof (get_recent_caller_owned st m now Hwf) as Hown.
    split; [by destruct (get_recent_result st m now Hwf)|].
    split; [done|]. by apply Hgen.
  - intros got before after.
    pose proof (get_full_caller_owned st m Hwf) as Hown.
    split.
    { subst got. destruct (get_full_result st m) as [_ ->].
      by destruct (get_full_views st m Hwf m) as (_ & _ & ->). }
    split; [done|]. by apply Hgen.
Qed.

(** C2, as stated, fails once a retrieval has emptied the deque: the
    final fragment repeats the text of the entry committed just before
    it and is stored all the same. *)
Lemma preceding_entry_counterexample :
  ¬ (last_history_text pruned_by_retrieval meeting_a
       = Some (_normalize_text (codes "same")) →
     (add_final_transcript pruned_by_retrieval meeting_a (codes "same") 100).2
       = None).
Proof. intros H. specialize (H eq_refl). vm_compute in H. discriminate. Qed.

(** C2, amended: in every reachable state the last entry of a non-empty
    deque is the entry committed last for the meeting, and a final
    fragment that repeats its normalized text is skipped; two final
    fragments in a row with the same normalized text commit at most one
    entry; a final fragment with a non-empty normalized text other than
    that of the last entry of the deque is stored, also when an earlier
    entry holds the same text. *)
Theorem final_dedup_adjacent cs m raw ts :
  let st := run new_service cs in
  let n := _normalize_text raw in
  (recent_view st m ≠ [] →
     last (recent_view st m) = last (history_view st m)
     ∧ (last_history_text st m = Some n →
        (add_final_transcript st m raw ts).2 = None
        ∧ history_view (add_final_transcript st m raw ts).1 m
          = history_view st m))
  ∧ (∀ raw2 ts2, _normalize_text raw2 = n →
       (add_final_transcript (add_final_transcript st m raw ts).1 m raw2 ts2).2
       = None)
  ∧ (n ≠ [] → last_recent_text st m ≠ Some n →
     ∃ a, (add_final_transcript st m raw ts).2 = Some a
          ∧ history_view (add_final_transcript st m raw ts).1 m
            = history_view st m ++ [a])
  ∧ (let st3 := run new_service (take 3 adjacency_scenario) in
     (add_final_transcript (run new_service (take 1 adjacency_scenario))
        meeting_a (codes "same text.") 100).2 = None
     ∧ contents st3 (history_view st3 meeting_a)
       = [Some (mkEntry (codes "same text.") 0);
          Some (mkEntry (codes "different.") 200)]
     ∧ (add_final_transcript st3 meeting_a (codes "same text.") 300).2
       = Some 2%nat).
Proof.
  intros st n. pose proof (wf_trace cs) as Hwf. fold st in Hwf.
  unfold add_final_transcript.
  pose proof (store_result st m raw ts false) as Hres. fold n in Hres.
  split; [|split; [|split; [|by vm_compute]]].
  - intros Hne.
    assert (Hlast : last (recent_view st m) = last (history_view st m)).
    { destruct (recent_suffix_history st m Hwf) as [k ->].
      rewrite last_app. by destruct (last (recent_view st m)) eqn:Hl;
        [|apply last_None in Hl]. }
    split; [done|]. intros Hh.
    assert (Hs : skipped st m n false = true).
    { unfold skipped. destruct n as [|c n'] eqn:Hn; [done|]. simpl.
      apply bool_decide_eq_true. unfold last_recent_text.
      by rewrite Hlast. }
    by destruct (store_skipped st m raw ts false m Hs) as (? & _ & _ & ?).
  - intros raw2 ts2 Hn2.
    rewrite store_result, Hn2.
    destruct (skipped st m n false) eqn:Hs.
    + destruct (store_skipped st m raw ts false m Hs) as (_ & He & Hr & _).
      unfold skipped in *. destruct n; [done|].
      by rewrite (last_recent_text_ext st _ m He Hr), Hs.
    + pose proof (last_recent_text_stored st m raw ts false Hwf Hs) as Hl.
      fold n in Hl. unfold skipped. destruct n; [done|]. simpl.
      by rewrite Hl, bool_decide_eq_true_2.
  - intros Hn Hl.
    assert (Hs : skipped st m n false = false).
    { destruct (skipped st m n false) eqn:Hs; [|done].
      by apply skipped_final_iff in Hs. }
    destruct (store_stored st m raw ts false Hwf Hs) as (Hr & _ & _ & Hh & _).
    by exists (length (entry_store st)).
Qed.

Lemma final_dedup_adjacent_witness :
  recent_view one_entry meeting_a ≠ []
  ∧ last_history_text one_entry meeting_a = Some (_normalize_text (codes "same"))
  ∧ (add_final_transcript one_entry meeting_a (codes "same") 100).2 = None.
Proof.
  split; [discriminate|]. split; [reflexivity|].
  destruct (final_dedup_adjacent [AddFinal meeting_a (codes "same") 0]
              meeting_a (codes "same") 100) as (H & _).
  destruct H as [_ H]; [discriminate|].
  apply H. reflexivity.
Defined.

(** C3: pruning with reference timestamp [t] pops the longest run of
    entries at the front of the deque that are older than [t - 30000],
    keeps the rest of the deque, in order, and the history of every
    meeting; a fragment that is stored is appended after the deque has
    been pruned with the timestamp of the fragment.  After fragments at
    0, 10000 and 35000 the deque holds the last two and the history all
    three. *)
Theorem prune_spec :
  BUFFER_WINDOW_MS = 30000
  ∧ (∀ cs m b t,
       let st := run new_service cs in
       _buffers st !! m = Some b →
       let st' := _prune st b t in
       ∃ gone,
         recent_view st m = gone ++ recent_view st' m
         ∧ Forall (λ a, ∃ e, read_entry st a = Some e
                             ∧ timestamp e < t - 30000) gone
         ∧ (∀ a rest, recent_view st' m = a :: rest →
              ∃ e, read_entry st a = Some e ∧ t - 30000 ≤ timestamp e)
         ∧ recent_view st' m
           = popleft_while (entry_store st) (t - 30000) (recent_view st m)
         ∧ entry_store st' = entry_store st
         ∧ (∀ m', history_view st' m' = history_view st m')
         ∧ (∀ m', m ≠ m' → recent_view st' m' = recent_view st m'))
  ∧ (∀ cs m raw ts dup a,
       let st := run new_service cs in
       let st' := (_store_transcript st m raw ts dup).1 in
       (_store_transcript st m raw ts dup).2 = Some a →
       recent_view st' m
         = popleft_while (entry_store st) (ts - 30000) (recent_view st m) ++ [a]
       ∧ history_view st' m = history_view st m ++ [a]
       ∧ read_entry st' a = Some (mkEntry (_normalize_text raw) ts))
  ∧ (let st := run new_service three_fragments in
     contents st (recent_view st meeting_a)
       = [Some (mkEntry (codes "two.") 10000);
          Some (mkEntry (codes "three.") 35000)]
     ∧ contents st (history_view st meeting_a)
       = [Some (mkEntry (codes "one.") 0);
          Some (mkEntry (codes "two.") 10000);
          Some (mkEntry (codes "three.") 35000)]).
Proof.
  split; [done|]. split; [|split; [|by vm_compute]].
  - intros cs m b t st Hb st'.
    pose proof (wf_trace cs) as Hwf. fold st in Hwf. subst st'.
    assert (Hr : recent_view (_prune st b t) m
                 = popleft_while (entry_store st) (t - 30000) (recent_view st m)).
    { destruct (prune_views st m Hwf b t m Hb) as [-> _].
      by destruct (decide (m = m)). }
    destruct (popleft_while_split (entry_store st) (t - 30000) (recent_view st m))
      as (gone & Hsplit & Hgone).
    exists gone. rewrite Hr. split; [done|]. split; [done|].
    split; [|split; [done|split; [done|split]]].
    + intros a rest Hhead.
      pose proof (popleft_while_head _ _ _ _ _ Hhead) as Hn.
      assert (a ∈ recent_view st m) as Hin.
      { rewrite Hsplit, Hhead. apply elem_of_app. right. by left. }
      apply (recent_in_history st m a Hwf), (history_allocated st m a Hwf) in Hin.
      destruct (lookup_lt_is_Some_2 (entry_store st) a Hin) as [e He].
      exists e. split; [done|].
      destruct (Z.lt_ge_cases (timestamp e) (t - 30000)) as [Hlt|Hge]; [|done].
      destruct Hn. by exists e.
    + intros m'. by destruct (prune_views st m Hwf b t m' Hb) as [_ ->].
    + intros m' Hne. destruct (prune_views st m Hwf b t m' Hb) as [-> _].
      by destruct (decide (m = m')).
  - intros cs m raw ts dup a st st' Hres.
    pose proof (wf_trace cs) as Hwf. fold st in Hwf.
    pose proof (stored_entry st m raw ts dup) as He.
    pose proof (store_result st m raw ts dup) as Hr.
    destruct (skipped st m (_normalize_text raw) dup) eqn:Hs;
      [congruence|].
    destruct (store_stored st m raw ts dup Hwf Hs) as (Ha & _ & Hrec & Hh & _).
    rewrite Hres in Ha. injection Ha as ->.
    split; [done|]. split; [done|].
    subst st'. destruct (_store_transcript st m raw ts dup) as [st2 [a|]];
      [|done]. simpl in *. by injection Hres as ->.
Qed.

Lemma prune_spec_witness :
  _buffers (run new_service three_fragments) !! meeting_a = Some (mkBuffer 0 1)
  ∧ recent_view (_prune (run new_service three_fragments) (mkBuffer 0 1) 45000)
      meeting_a = [2%nat].
Proof.
  split; [reflexivity|].
  destruct prune_spec as (_ & H & _).
  destruct (H three_fragments meeting_a (mkBuffer 0 1) 45000 eq_refl)
    as (gone & _ & _ & _ & Hr & _).
  exact Hr.
Defined.

(** C4, as stated, fails on a blank final fragment: no entry is produced
    although the deque is empty. *)
Lemma final_skip_counterexample :
  ¬ ((add_final_transcript new_service meeting_a (codes "   ") 0).2 = None
     ↔ (recent_view new_service meeting_a ≠ []
        ∧ last_recent_text new_service meeting_a
          = Some (_normalize_text (codes "   ")))).
Proof. intros [H _]. destruct (H eq_refl) as [Hne _]. by apply Hne. Qed.

(** C4, amended: for a text whose normalized form is not empty, a final
    fragment produces no entry exactly when the deque is not empty and
    the text of its last entry is the normalized text, and is stored
    otherwise; a partial fragment is never checked, so the same partial
    text twice in a row gives two entries. *)
Theorem adjacency_dedup cs m raw ts ts2 :
  let st := run new_service cs in
  let n := _normalize_text raw in
  n ≠ [] →
  ((add_final_transcript st m raw ts).2 = None
   ↔ recent_view st m ≠ []
     ∧ ∃ a e, last (recent_view st m) = Some a
              ∧ read_entry st a = Some e ∧ text e = n)
  ∧ ((add_final_transcript st m raw ts).2 = None →
     let st' := (add_final_transcript st m raw ts).1 in
     entry_store st' = entry_store st
     ∧ recent_view st' m = recent_view st m
     ∧ history_view st' m = history_view st m)
  ∧ ((add_final_transcript st m raw ts).2 ≠ None →
     let st' := (add_final_transcript st m raw ts).1 in
     ∃ a, (add_final_transcript st m raw ts).2 = Some a
          ∧ read_entry st' a = Some (mkEntry n ts)
          ∧ last (recent_view st' m) = Some a
          ∧ history_view st' m = history_view st m ++ [a])
  ∧ (let first := add_partial_transcript st m raw ts in
     let second := add_partial_transcript first.1 m raw ts2 in
     ∃ a1 a2, first.2 = Some a1 ∧ second.2 = Some a2 ∧ a1 ≠ a2
              ∧ read_entry second.1 a1 = Some (mkEntry n ts)
              ∧ read_entry second.1 a2 = Some (mkEntry n ts2)
              ∧ history_view second.1 m = history_view st m ++ [a1; a2]).
Proof.
  intros st n Hn. pose proof (wf_trace cs) as Hwf. fold st in Hwf.
  pose proof (store_result st m raw ts false) as Hres.
  pose proof (skipped_final_iff st m n Hn) as Hiff. fold n in Hres.
  unfold add_final_transcript, add_partial_transcript.
  split; [|split; [|split]].
  - assert (Hnone : (_store_transcript st m raw ts false).2 = None
                    ↔ last_recent_text st m = Some n).
    { rewrite Hres, <- Hiff. by destruct (skipped st m n false). }
    rewrite Hnone, last_recent_text_Some. split.
    + intros (a & e & Hl & He & Ht).
      split; [by destruct (recent_view st m)|]. exists a, e. by repeat split.
    + by intros [_ H].
  - intros Hnone. rewrite Hres in Hnone.
    destruct (skipped st m n false) eqn:Hs; [|done].
    by destruct (store_skipped st m raw ts false m Hs) as (_ & ? & ? & ?).
  - intros Hsome. rewrite Hres in Hsome.
    destruct (skipped st m n false) eqn:Hs; [done|].
    destruct (store_stored st m raw ts false Hwf Hs) as (Hr & _ & Hrec & Hh & _).
    exists (length (entry_store st)). split; [done|].
    pose proof (stored_entry st m raw ts false) as He.
    destruct (_store_transcript st m raw ts false) as [st1 r]; simpl in *.
    subst r. split; [done|]. split; [|done]. rewrite Hrec. apply last_snoc.
  - pose proof (skipped_partial st m n Hn) as Hs1.
    destruct (store_stored st m raw ts true Hwf Hs1) as (Hr1 & He1 & _ & Hh1 & _).
    pose proof (stored_entry st m raw ts true) as Hc1.
    pose proof (wf_store st m raw ts true Hwf) as Hwf1.
    destruct (_store_transcript st m raw ts true) as [st1 r1]; simpl in *.
    subst r1.
    pose proof (skipped_partial st1 m n Hn) as Hs2.
    destruct (store_stored st1 m raw ts2 true Hwf1 Hs2) as (Hr2 & He2 & _ & Hh2 & _).
    pose proof (stored_entry st1 m raw ts2 true) as Hc2.
    pose proof (store_entry_store st1 m raw ts2 true) as Hpre.
    destruct (_store_transcript st1 m raw ts2 true) as [st2 r2]; simpl in *.
    subst r2.
    exists (length (entry_store st)), (length (entry_store st1)).
    split; [done|]. split; [done|]. split.
    { rewrite He1, length_app. simpl. lia. }
    split; [by eapply read_entry_prefix|]. split; [done|].
    rewrite Hh2, Hh1. by rewrite <- app_assoc.
Qed.

Lemma adjacency_dedup_witness :
  _normalize_text (codes "same") ≠ []
  ∧ (add_final_transcript one_entry meeting_a (codes "same") 100).2 = None.
Proof.
  split; [discriminate|].
  destruct (adjacency_dedup [AddFinal meeting_a (codes "same") 0] meeting_a
              (codes "same") 100 200) as (H & _); [discriminate|].
  apply H. split; [discriminate|].
  exists 0%nat, (mkEntry (codes "same.") 0). repeat split; reflexivity.
Defined.

(** C5: normalization collapses every run of whitespace to one space,
    trims whitespace at both ends and appends a full stop to a non-empty
    result that does not end in [.], [!] or [?].  A fragment whose
    normalized text is not empty, ingested as partial, or as final when
    its normalized text is not that of the last entry of the deque, is
    stored: the call returns a new entry that holds the normalized text
    and the timestamp of the call and is the last entry of the deque and
    of the history of the meeting.  Ingested into a new service,
    [hello world] is stored as [hello world.], [Already done!] is
    stored unchanged, and [a   b<TAB>c] is stored as [a b c.]. *)
Theorem normalize_text_spec :
  (∀ text, _normalize_text text = spec_normalize text)
  ∧ (∀ st m text ts dup,
       match _store_transcript st m text ts dup with
       | (st', Some a) =>
           read_entry st' a = Some (mkEntry (spec_normalize text) ts)
       | (_, None) => True
       end)
  ∧ (∀ cs m text ts dup,
       spec_normalize text ≠ [] →
       dup = true
       ∨ last_recent_text (run new_service cs) m ≠ Some (spec_normalize text) →
       ∃ a,
         (_store_transcript (run new_service cs) m text ts dup).2 = Some a
         ∧ read_entry (_store_transcript (run new_service cs) m text ts dup).1 a
           = Some (mkEntry (spec_normalize text) ts)
         ∧ last (recent_view
                   (_store_transcript (run new_service cs) m text ts dup).1 m)
           = Some a
         ∧ last (history_view
                   (_store_transcript (run new_service cs) m text ts dup).1 m)
           = Some a)
  ∧ _normalize_text (codes "hello world") = codes "hello world."
  ∧ _normalize_text (codes "Already done!") = codes "Already done!"
  ∧ _normalize_text (codes "a   b" ++ [9%N] ++ codes "c") = codes "a b c."
  ∧ (∀ ts,
       contents
         (add_final_transcript new_service meeting_a (codes "hello world") ts).1
         (history_view
            (add_final_transcript new_service meeting_a
               (codes "hello world") ts).1 meeting_a)
       = [Some (mkEntry (codes "hello world.") ts)]
       ∧ contents
           (add_final_transcript new_service meeting_a
              (codes "Already done!") ts).1
           (history_view
              (add_final_transcript new_service meeting_a
                 (codes "Already done!") ts).1 meeting_a)
         = [Some (mkEntry (codes "Already done!") ts)]
       ∧ contents
           (add_final_transcript new_service meeting_a
              (codes "a   b" ++ [9%N] ++ codes "c") ts).1
           (history_view
              (add_final_transcript new_service meeting_a
                 (codes "a   b" ++ [9%N] ++ codes "c") ts).1 meeting_a)
         = [Some (mkEntry (codes "a b c.") ts)]).
Proof.
  split; [apply normalize_refines|].
  split; [intros st m t ts dup; rewrite <- normalize_refines;
          apply stored_entry|].
  split; [|split; [by vm_compute|]; split; [by vm_compute|];
           split; [by vm_compute|]; intros ts; by vm_compute].
  intros cs m t ts dup. rewrite <- normalize_refines. intros Hn Hd.
  pose proof (wf_trace cs) as Hwf.
  assert (Hs : skipped (run new_service cs) m (_normalize_text t) dup = false).
  { destruct Hd as [->|Hd]; [by apply skipped_partial|].
    destruct dup; [by apply skipped_partial|].
    destruct (skipped (run new_service cs) m (_normalize_text t) false) eqn:Hs;
      [|done].
    by apply skipped_final_iff in Hs. }
  destruct (store_stored (run new_service cs) m t ts dup Hwf Hs)
    as (Hr & He & Hv & Hh & _).
  exists (length (entry_store (run new_service cs))).
  split; [done|]. split; [|split].
  - unfold read_entry. rewrite He.
    by rewrite lookup_app_r, Nat.sub_diag by done.
  - rewrite Hv. apply last_snoc.
  - rewrite Hh. apply last_snoc.
Qed.

Lemma normalize_text_spec_witness :
  ∃ a,
    (_store_transcript (run new_service [AddFinal meeting_a (codes "same") 0])
       meeting_a (codes "hello world") 5 false).2 = Some a
    ∧ read_entry
        (_store_transcript
           (run new_service [AddFinal meeting_a (codes "same") 0])
           meeting_a (codes "hello world") 5 false).1 a
      = Some (mkEntry (codes "hello world.") 5).
Proof.
  destruct normalize_text_spec as (_ & _ & H & _).
  destruct (H [AddFinal meeting_a (codes "same") 0] meeting_a
              (codes "hello world") 5 false)
    as (a & Ha & He & _).
  - vm_compute. discriminate.
  - right. vm_compute. discriminate.
  - exists a. split; [exact Ha | exact He].
Defined.

(** C6: a text that normalizes to the empty string produces no entry,
    as a final and as a partial fragment: the call returns [None], no
    entry object is created and the recent and history views of every
    meeting stay as they were. *)
Theorem empty_text_skipped st m text ts dup m' :
  _normalize_text text = [] →
  let st' := (_store_transcript st m text ts dup).1 in
  (add_final_transcript st m text ts).2 = None
  ∧ (add_partial_transcript st m text ts).2 = None
  ∧ (_store_transcript st m text ts dup).2 = None
  ∧ entry_store st' = entry_store st
  ∧ recent_view st' m' = recent_view st m'
  ∧ history_view st' m' = history_view st m'.
Proof.
  intros Hn.
  assert (Hs : ∀ d, skipped st m (_normalize_text text) d = true)
    by (intros d; by rewrite Hn).
  split; [by apply (store_skipped st m text ts false m')|].
  split; [by apply (store_skipped st m text ts true m')|].
  by apply (store_skipped st m text ts dup m').
Qed.

Lemma empty_text_skipped_witness :
  _normalize_text (codes "   ") = []
  ∧ (add_final_transcript new_service meeting_a (codes "   ") 0).2 = None.
Proof.
  split; [reflexivity|].
  apply (empty_text_skipped new_service meeting_a (codes "   ") 0 false meeting_a).
  reflexivity.
Defined.

(** C7: the history of a meeting only grows: every call other than
    [clear_meeting] of that meeting leaves the history it finds as a
    prefix of the history it leaves, no call changes an entry object,
    the deque is a suffix of the history in every reachable state, and
    what is appended to the deque is appended to the history in the same
    call; so whatever the deque held at some time is still in the
    history, in the same order, until the meeting is cleared. *)
Theorem history_append_only cs m :
  let st := run new_service cs in
  recent_view st m `suffix_of` history_view st m
  ∧ (∀ c, c ≠ ClearMeeting m →
       history_view st m `prefix_of` history_view (run_call st c) m
       ∧ contents (run_call st c) (history_view st m)
         = contents st (history_view st m))
  ∧ (∀ cs', ClearMeeting m ∉ cs' →
       history_view st m `prefix_of` history_view (run st cs') m
       ∧ recent_view st m `sublist_of` history_view (run st cs') m
       ∧ contents (run st cs') (history_view st m)
         = contents st (history_view st m))
  ∧ (∀ m0 raw ts dup a,
       let st' := (_store_transcript st m0 raw ts dup).1 in
       (_store_transcript st m0 raw ts dup).2 = Some a →
       last (recent_view st' m0) = Some a
       ∧ history_view st' m0 = history_view st m0 ++ [a]).
Proof.
  intros st. pose proof (wf_trace cs) as Hwf. fold st in Hwf.
  assert (Hkeep : ∀ st', entry_store st `prefix_of` entry_store st' →
            contents st' (history_view st m) = contents st (history_view st m)).
  { intros st' Hpre. unfold contents. apply list_fmap_ext.
    intros i a Ha.
    assert (a ∈ history_view st m) as Hin by (by eapply list_elem_of_lookup_2).
    apply (history_allocated st m a Hwf) in Hin.
    destruct (lookup_lt_is_Some_2 (entry_store st) a Hin) as [e He].
    rewrite (read_entry_prefix st st' a e Hpre He). by symmetry. }
  split; [by apply recent_suffix_history|].
  split; [|split].
  - intros c Hc. split; [by apply run_call_history|].
    apply Hkeep, run_call_entry_store.
  - intros cs' Hcs'. split; [by apply run_history|].
    split; [|apply Hkeep, run_entry_store].
    destruct (run_history st cs' m Hwf Hcs') as [k2 ->].
    destruct (recent_suffix_history st m Hwf) as [k1 ->].
    by apply sublist_inserts_r, sublist_inserts_l.
  - intros m0 raw ts dup a st' Hres.
    pose proof (store_result st m0 raw ts dup) as Hr.
    destruct (skipped st m0 (_normalize_text raw) dup) eqn:Hs; [congruence|].
    destruct (store_stored st m0 raw ts dup Hwf Hs) as (Ha & _ & Hrec & Hh & _).
    rewrite Hres in Ha. injection Ha as ->.
    subst st'. rewrite Hrec, Hh. split; [apply last_snoc | done].
Qed.

Lemma history_append_only_witness :
  GetRecent meeting_a 100000 ≠ ClearMeeting meeting_a
  ∧ history_view (run new_service three_fragments) meeting_a
    `prefix_of` history_view
                  (run_call (run new_service three_fragments)
                     (GetRecent meeting_a 100000)) meeting_a.
Proof.
  split; [discriminate|].
  destruct (history_append_only three_fragments meeting_a) as (_ & H & _).
  apply (H (GetRecent meeting_a 100000)). discriminate.
Defined.

(** C8: [clear_meeting] removes the buffer of the meeting and does
    nothing for an id without buffer; afterwards, as for any id without
    buffer, both retrievals return an empty list; the next fragment for
    the id gets a new buffer, sharing no container with the old one,
    whose deque and history hold that fragment's entry and nothing
    else. *)
Theorem clear_meeting_spec cs m :
  let st := run new_service cs in
  let st' := clear_meeting st m in
  _buffers st' !! m = None
  ∧ (_buffers st !! m = None → st' = st)
  ∧ (∀ now, read_seq (get_recent_entries st' m now).1
              (get_recent_entries st' m now).2 = [])
  ∧ read_seq (get_full_entries st' m).1 (get_full_entries st' m).2 = []
  ∧ (∀ m0 now, _buffers st !! m0 = None →
       read_seq (get_recent_entries st m0 now).1
         (get_recent_entries st m0 now).2 = []
       ∧ read_seq (get_full_entries st m0).1 (get_full_entries st m0).2 = [])
  ∧ (∀ raw ts dup,
       let after := _store_transcript st' m raw ts dup in
       (∀ b x, _buffers st !! m = Some b → owns b x →
          ∃ b', _buffers after.1 !! m = Some b' ∧ ¬ owns b' x)
       ∧ match after.2 with
         | Some a =>
             recent_view after.1 m = [a] ∧ history_view after.1 m = [a]
             ∧ (a ∉ history_view st m)
             ∧ read_entry after.1 a = Some (mkEntry (_normalize_text raw) ts)
         | None =>
             _normalize_text raw = []
             ∧ recent_view after.1 m = [] ∧ history_view after.1 m = []
         end).
Proof.
  intros st st'. pose proof (wf_trace cs) as Hwf. fold st in Hwf.
  pose proof (wf_clear st m Hwf) as Hwf'. fold st' in Hwf'.
  assert (Hnone : _buffers st' !! m = None).
  { subst st'. rewrite clear_lookup. by destruct (decide (m = m)). }
  destruct (unknown_views st' m Hnone) as [Hrec Hhis].
  split; [done|]. split; [apply clear_unknown|].
  split; [intros now; (by apply empty_recent_result)|].
  split; [by apply empty_full_result|].
  split.
  { intros m0 now Hm0. destruct (unknown_views st m0 Hm0) as [Hr0 Hh0].
    split; [by apply empty_recent_result | by apply empty_full_result]. }
  intros raw ts dup after. split.
  - intros b x Hb Ho. exists (buffer_for st' m).2. split.
    + subst after. rewrite store_buffers. apply buffer_for_lookup.
    + rewrite (buffer_for_new st' m Hnone). subst st'. rewrite clear_length.
      pose proof (wf_alloc st Hwf m b x Hb Ho) as Hlt.
      intros [->| ->]; simpl in Hlt; lia.
  - pose proof (store_result st' m raw ts dup) as Hres.
    pose proof (stored_entry st' m raw ts dup) as Hent.
    assert (Hl : last_recent_text st' m = None).
    { unfold last_recent_text. by rewrite Hrec. }
    destruct (skipped st' m (_normalize_text raw) dup) eqn:Hs.
    + destruct (store_skipped st' m raw ts dup m Hs) as (_ & _ & Hr & Hh).
      subst after. rewrite Hres. split; [|by rewrite Hr, Hh].
      unfold skipped in Hs. rewrite Hl in Hs.
      destruct (_normalize_text raw); [done|].
      by rewrite andb_false_r in Hs.
    + destruct (store_stored st' m raw ts dup Hwf' Hs) as (_ & _ & Hr & Hh & _).
      subst after. rewrite Hres.
      rewrite Hr, Hh, Hrec, Hhis. simpl. split; [done|]. split; [done|].
      split.
      * subst st'. rewrite clear_entry_store. intros Hin.
        apply (history_allocated st m _ Hwf) in Hin. lia.
      * destruct (_store_transcript st' m raw ts dup) as [st2 r].
        simpl in *. by subst r.
Qed.

Lemma clear_meeting_spec_witness :
  _buffers new_service !! meeting_a = None
  ∧ clear_meeting new_service meeting_a = new_service.
Proof.
  split; [reflexivity|].
  destruct (clear_meeting_spec [] meeting_a) as (_ & H & _).
  apply H. reflexivity.
Defined.

(** C9: for two distinct meetings, a fragment ingested for the first, or
    the clearing of the first, leaves the deque, the history and the
    entries of the second as they were; the entry made for the first
    meeting is never held by the second, whatever calls follow, and is
    in no list retrieved for the second. *)
Theorem meetings_isolated cs ma mb :
  ma ≠ mb →
  let st := run new_service cs in
  (∀ raw ts dup,
     let after := _store_transcript st ma raw ts dup in
     recent_view after.1 mb = recent_view st mb
     ∧ history_view after.1 mb = history_view st mb
     ∧ contents after.1 (history_view st mb) = contents st (history_view st mb)
     ∧ ∀ a cs' now,
         after.2 = Some a →
         let later := run after.1 cs' in
         (a ∉ recent_view later mb) ∧ (a ∉ history_view later mb)
         ∧ (a ∉ read_seq (get_recent_entries later mb now).1
                  (get_recent_entries later mb now).2)
         ∧ (a ∉ read_seq (get_full_entries later mb).1
                  (get_full_entries later mb).2))
  ∧ recent_view (clear_meeting st ma) mb = recent_view st mb
  ∧ history_view (clear_meeting st ma) mb = history_view st mb
  ∧ _buffers (clear_meeting st ma) !! mb = _buffers st !! mb
  ∧ contents (clear_meeting st ma) (history_view st mb)
    = contents st (history_view st mb).
Proof.
  intros Hne st. pose proof (wf_trace cs) as Hwf. fold st in Hwf.
  split.
  - intros raw ts dup after.
    pose proof (wf_store st ma raw ts dup Hwf) as Hwf1.
    pose proof (store_entry_store st ma raw ts dup) as Hpre.
    pose proof (store_result st ma raw ts dup) as Hres.
    assert (Hviews : recent_view after.1 mb = recent_view st mb
                     ∧ history_view after.1 mb = history_view st mb).
    { destruct (skipped st ma (_normalize_text raw) dup) eqn:Hs.
      - by destruct (store_skipped st ma raw ts dup mb Hs) as (_ & _ & ? & ?).
      - destruct (store_stored st ma raw ts dup Hwf Hs) as (_ & _ & _ & _ & Ho).
        by apply Ho. }
    destruct Hviews as [Hr Hh]. split; [done|]. split; [done|].
    split; [by apply contents_kept|].
    intros a cs' now Ha later.
    destruct (skipped st ma (_normalize_text raw) dup) eqn:Hs.
    { subst after. rewrite Ha in Hres. done. }
    destruct (store_stored st ma raw ts dup Hwf Hs) as (_ & He & _).
    subst after. rewrite Ha in Hres. injection Hres as ->.
    set (st1 := (_store_transcript st ma raw ts dup).1) in *.
    assert (Hlt : (length (entry_store st) < length (entry_store st1))%nat).
    { rewrite He, length_app. simpl. lia. }
    assert (Hout : length (entry_store st) ∉ history_view st1 mb).
    { rewrite Hh. intros Hin. apply (history_allocated st mb _ Hwf) in Hin. lia. }
    assert (Hfut : ∀ cs'', length (entry_store st) ∉ history_view (run st1 cs'') mb)
      by (intros cs''; by apply run_foreign).
    pose proof (wf_run st1 cs' Hwf1) as Hwfl. fold later in Hwfl.
    split; [intros Hin; by apply (Hfut cs'), recent_in_history|].
    split; [apply Hfut|]. split.
    + destruct (get_recent_result later mb now Hwfl) as [_ ->].
      intros Hin. apply (Hfut (cs' ++ [GetRecent mb now])).
      rewrite run_snoc. simpl. apply recent_in_history; [|done].
      by apply wf_get_recent.
    + destruct (get_full_result later mb) as [_ ->]. apply Hfut.
  - destruct (clear_views_other st ma Hwf mb Hne) as [-> ->].
    split; [done|]. split; [done|]. split.
    + rewrite clear_lookup. by destruct (decide (ma = mb)).
    + apply contents_kept; [done|]. by rewrite clear_entry_store.
Qed.

Lemma meetings_isolated_witness :
  meeting_a ≠ meeting_b
  ∧ history_view
      (_store_transcript (run new_service three_fragments) meeting_b
         (codes "other") 5 false).1 meeting_a
    = history_view (run new_service three_fragments) meeting_a.
Proof.
  split; [discriminate|].
  destruct (meetings_isolated three_fragments meeting_b meeting_a) as [H _];
    [discriminate|].
  apply (H (codes "other") 5 false).
Defined.

(** C10: the duplicate check of a final fragment reads the last entry of
    the deque before the call prunes: a final fragment whose normalized
    text is that of the last entry is skipped whatever the two
    timestamps are, also when the entry is older than the window and the
    pruning of a stored fragment with the same timestamp evicts it. *)
Theorem duplicate_checked_before_prune :
  (∀ st m raw ts a e,
     last (recent_view st m) = Some a →
     read_entry st a = Some e →
     text e = _normalize_text raw →
     let st' := (add_final_transcript st m raw ts).1 in
     (add_final_transcript st m raw ts).2 = None
     ∧ recent_view st' m = recent_view st m
     ∧ history_view st' m = history_view st m)
  ∧ (let old := add_final_transcript one_entry meeting_a (codes "same") 100000 in
     let new := add_partial_transcript one_entry meeting_a (codes "same") 100000 in
     contents one_entry (recent_view one_entry meeting_a)
       = [Some (mkEntry (codes "same.") 0)]
     ∧ 0 < 100000 - BUFFER_WINDOW_MS
     ∧ old.2 = None
     ∧ recent_view old.1 meeting_a = [0%nat]
     ∧ new.2 = Some 1%nat
     ∧ recent_view new.1 meeting_a = [1%nat]).
Proof.
  split; [|by vm_compute].
  intros st m t ts a e Hlast Ha Ht st'.
  assert (Hs : skipped st m (_normalize_text t) false = true).
  { unfold skipped. destruct (_normalize_text t) eqn:Hn; [done|].
    simpl. apply bool_decide_eq_true. unfold last_recent_text.
    rewrite Hlast; simpl. rewrite Ha; simpl. by rewrite Ht. }
  destruct (store_skipped st m t ts false m Hs) as (? & ? & ? & ?). done.
Qed.

Lemma duplicate_checked_before_prune_witness :
  last (recent_view one_entry meeting_a) = Some 0%nat
  ∧ read_entry one_entry 0 = Some (mkEntry (codes "same.") 0)
  ∧ (add_final_transcript one_entry meeting_a (codes "same") 100000).2 = None.
Proof.
  split; [reflexivity|]. split; [reflexivity|].
  destruct duplicate_checked_before_prune as [H _].
  apply (H one_entry meeting_a (codes "same") 100000 0%nat
           (mkEntry (codes "same.") 0)); reflexivity.
Defined.

(** * Further properties *)

(** ** Pruning twice *)

Lemma popleft_while_later es c1 c2 q :
  c1 ≤ c2 →
  popleft_while es c2 (popleft_while es c1 q) = popleft_while es c2 q.
Proof.
  intros Hle. induction q as [|a q IH]; simpl; [done|].
  destruct (es !! a) as [e|] eqn:He; [|simpl; by rewrite He].
  destruct (Z.ltb_spec (timestamp e) c1) as [H1|H1].
  - rewrite IH. destruct (Z.ltb_spec (timestamp e) c2); [done|lia].
  - simpl. by rewrite He.
Qed.

Lemma popleft_while_earlier es c1 c2 q :
  c2 ≤ c1 →
  popleft_while es c2 (popleft_while es c1 q) = popleft_while es c1 q.
Proof.
  intros Hle. destruct (popleft_while es c1 q) as [|a rest] eqn:Hq; [done|].
  apply popleft_while_fresh. intros (e & He & Hlt).
  apply (popleft_while_head _ _ _ _ _ Hq). exists e. split; [done|lia].
Qed.

(** X1: two retrievals of the recent entries in a row.  When the clock
    has not gone back, the second returns what a single retrieval at the
    later time returns; when the second time is not later than the
    first, it returns what the first returned; in both cases what it
    returns is a suffix of what the first returned, and the history is
    not touched. *)
Theorem get_recent_twice cs m now1 now2 :
  let st := run new_service cs in
  let first := get_recent_entries st m now1 in
  let second := get_recent_entries first.1 m now2 in
  let direct := get_recent_entries st m now2 in
  (now1 ≤ now2 → read_seq second.1 second.2 = read_seq direct.1 direct.2)
  ∧ (now2 ≤ now1 → read_seq second.1 second.2 = read_seq first.1 first.2)
  ∧ read_seq second.1 second.2 `suffix_of` read_seq first.1 first.2
  ∧ history_view second.1 m = history_view st m.
Proof.
  intros st first second direct.
  pose proof (wf_trace cs) as Hwf. fold st in Hwf.
  pose proof (wf_get_recent st m now1 Hwf) as Hwf1. fold first in Hwf1.
  destruct (get_recent_result st m now1 Hwf) as [_ Hr1].
  destruct (get_recent_views st m now1 Hwf m) as (He1 & Hv1 & Hh1).
  destruct (get_recent_result first.1 m now2 Hwf1) as [_ Hr2].
  destruct (get_recent_views first.1 m now2 Hwf1 m) as (He2 & Hv2 & Hh2).
  destruct (get_recent_result st m now2 Hwf) as [_ Hrd].
  destruct (get_recent_views st m now2 Hwf m) as (_ & Hvd & _).
  fold first in Hr1, He1, Hv1, Hh1. fold second in Hr2, He2, Hv2, Hh2.
  fold direct in Hrd, Hvd.
  destruct (decide (m = m)) as [_|]; [|done].
  rewrite Hr1, Hr2, Hrd, Hv2, Hvd, Hv1, He1, Hh2, Hh1.
  split; [intros Hle; apply popleft_while_later; lia|].
  split; [intros Hle; apply popleft_while_earlier; lia|].
  split; [apply popleft_while_suffix | done].
Qed.

Lemma get_recent_twice_witness :
  20000 ≤ 50000
  ∧ read_seq
      (get_recent_entries
         (get_recent_entries (run new_service three_fragments) meeting_a 20000).1
         meeting_a 50000).1
      (get_recent_entries
         (get_recent_entries (run new_service three_fragments) meeting_a 20000).1
         meeting_a 50000).2
    = read_seq
        (get_recent_entries (run new_service three_fragments) meeting_a 50000).1
        (get_recent_entries (run new_service three_fragments) meeting_a 50000).2.
Proof.
  split; [lia|].
  destruct (get_recent_twice three_fragments meeting_a 20000 50000) as [H _].
  apply H. lia.
Defined.

(** ** Initialization *)

Lemma buffer_for_init st m : buffer_for (init_meeting st m) m = buffer_for st m.
Proof.
  rewrite init_meeting_buffer_for.
  rewrite (buffer_for_known _ m _ (buffer_for_lookup st m)).
  by destruct (buffer_for st m).
Qed.

(** X2: [init_meeting] may be skipped.  It makes an empty buffer for a
    meeting that has none and does nothing otherwise, so it changes no
    view and calling it again changes nothing; a fragment ingested after
    it leaves the service in the state, and returns the entry, that the
    same ingestion without it does. *)
Theorem init_meeting_optional st m raw ts dup m' :
  is_Some (_buffers (init_meeting st m) !! m)
  ∧ (is_Some (_buffers st !! m) → init_meeting st m = st)
  ∧ init_meeting (init_meeting st m) m = init_meeting st m
  ∧ entry_store (init_meeting st m) = entry_store st
  ∧ recent_view (init_meeting st m) m' = recent_view st m'
  ∧ history_view (init_meeting st m) m' = history_view st m'
  ∧ _store_transcript (init_meeting st m) m raw ts dup
    = _store_transcript st m raw ts dup.
Proof.
  assert (Hsome : is_Some (_buffers (init_meeting st m) !! m)).
  { rewrite init_meeting_buffer_for, buffer_for_lookup. by eexists. }
  split; [done|]. split.
  { intros [b Hb]. unfold init_meeting. by rewrite Hb. }
  split.
  { destruct Hsome as [b Hb]. unfold init_meeting at 1. by rewrite Hb. }
  destruct (init_views st m m') as (He & Hr & Hh).
  do 3 (split; [done|]).
  by rewrite !store_unfold, buffer_for_init.
Qed.

Lemma init_meeting_optional_witness :
  is_Some (_buffers (run new_service three_fragments) !! meeting_a)
  ∧ init_meeting (run new_service three_fragments) meeting_a
    = run new_service three_fragments.
Proof.
  split; [by eexists|].
  destruct (init_meeting_optional (run new_service three_fragments) meeting_a
              [] 0 false meeting_a) as (_ & H & _).
  apply H. by eexists.
Defined.

(** ** The shape of a normalized text *)

Section Normalized.
Variable ws : N → bool.
Hypothesis ws_space : ws SPACE = true.

Implicit Types (s t u w x : str) (c : N) (words : list str).

Local Abbreviation blank := (Forall (λ c, ws c = true)).
Local Abbreviation solid := (Forall (λ c, ws c = false)).
Local Abbreviation good := (Forall (λ x : str, x ≠ [] ∧ solid x)).

Lemma split_solid_app w x s :
  solid x → split_by ws w (x ++ s) = split_by ws (w ++ x) s.
Proof.
  intros Hx. revert w. induction Hx as [|c x Hc _ IH]; intros w; simpl.
  - by rewrite app_nil_r.
  - rewrite Hc, IH. by rewrite <- app_assoc.
Qed.

Lemma split_at_space w s :
  split_by ws w (SPACE :: s)
  = match w with [] => split_by ws [] s | _ => w :: split_by ws [] s end.
Proof. simpl. by rewrite ws_space. Qed.

Lemma collapse_at_space s :
  collapse_by ws false (SPACE :: s) = SPACE :: collapse_by ws true s.
Proof. simpl. by rewrite ws_space. Qed.

Lemma split_join words :
  good words → split_by ws [] (join [SPACE] words) = words.
Proof.
  induction 1 as [|x words [Hx Hs] Hall IH]; [done|].
  destruct words as [|y words].
  - simpl. rewrite <- (app_nil_r x) at 1. rewrite split_solid_app by done.
    simpl. by destruct x.
  - change (join [SPACE] (x :: y :: words))
      with (x ++ SPACE :: join [SPACE] (y :: words)).
    rewrite split_solid_app by done. rewrite split_at_space, IH.
    by destruct x.
Qed.

Lemma join_nil words : good words → join [SPACE] words = [] → words = [].
Proof.
  intros Hg Hj. destruct Hg as [|x words [Hx _] _]; [done|].
  destruct words; simpl in Hj; by destruct x.
Qed.

Lemma split_nil w s : split_by ws w s = [] ↔ w = [] ∧ blank s.
Proof.
  revert w. induction s as [|c s IH]; intros w; simpl.
  - destruct w; split; try done. by intros [? _].
  - destruct (ws c) eqn:Hc.
    + destruct w.
      * rewrite IH. split; intros [? ?]; (split; [done|]);
          [by constructor | by inversion H0].
      * split; [done | by intros [? _]].
    + rewrite IH. split.
      * intros [H _]. by destruct w.
      * intros [_ H]. inversion H; congruence.
Qed.

Lemma collapse_solid_app b x s :
  solid x → x ≠ [] →
  collapse_by ws b (x ++ s) = x ++ collapse_by ws false s.
Proof.
  intros Hx. revert b. induction Hx as [|c x Hc Hx IH]; intros b Hne; [done|].
  simpl. rewrite Hc. f_equal.
  destruct x as [|d x]; [done|]. by apply IH.
Qed.

Lemma collapse_joined b words :
  good words → collapse_by ws b (join [SPACE] words) = join [SPACE] words.
Proof.
  intros Hg. revert b. induction Hg as [|x words [Hx Hs] Hall IH]; intros b;
    [done|].
  destruct words as [|y words].
  - simpl. rewrite <- (app_nil_r x) at 1.
    rewrite collapse_solid_app by done. simpl. by rewrite app_nil_r.
  - change (join [SPACE] (x :: y :: words))
      with (x ++ SPACE :: join [SPACE] (y :: words)).
    rewrite collapse_solid_app by done. by rewrite collapse_at_space, IH.
Qed.

Lemma strip_tight u : tight_by ws u → strip_by ws u = u.
Proof.
  intros Hu. rewrite <- (app_nil_r u) at 1.
  by apply (strip_unique ws [] u []).
Qed.

(** A character that is not whitespace, added at the end of the joined
    words, goes to the last word. *)
Lemma join_snoc words c :
  good words → words ≠ [] → ws c = false →
  ∃ words', good words' ∧ join [SPACE] words ++ [c] = join [SPACE] words'.
Proof.
  intros Hg Hne Hc. induction Hg as [|x words [Hx Hs] Hall IH]; [done|].
  destruct words as [|y words].
  - exists [x ++ [c]]. split; [|done]. constructor; [|constructor].
    split; [by destruct x|]. apply Forall_app. split; [done|].
    by constructor.
  - destruct IH as (words' & Hg' & Hj); [done|].
    exists (x :: words'). split; [by constructor|].
    change (join [SPACE] (x :: y :: words))
      with (x ++ SPACE :: join [SPACE] (y :: words)).
    rewrite <- app_assoc.
    change ((SPACE :: join [SPACE] (y :: words)) ++ [c])
      with (SPACE :: (join [SPACE] (y :: words) ++ [c])).
    rewrite Hj. destruct words' as [|z words']; [|done].
    apply (f_equal length) in Hj. rewrite length_app in Hj. simpl in Hj. lia.
Qed.

(** What is made of good words is left as it is by splitting and
    joining, by collapsing and by trimming. *)
Lemma joined_fixed words :
  good words →
  let s := join [SPACE] words in
  join [SPACE] (split_by ws [] (strip_by ws s)) = s
  ∧ collapse_by ws false s = s ∧ strip_by ws s = s.
Proof.
  intros Hg s.
  assert (Hstrip : strip_by ws s = s) by (by apply strip_tight, tight_join).
  split; [|split; [by apply collapse_joined | done]].
  rewrite Hstrip. subst s. by rewrite split_join.
Qed.
End Normalized.

Lemma isspace_DOT : isspace DOT = false.
Proof. reflexivity. Qed.

Lemma normalize_last t :
  _normalize_text t = []
  ∨ ∃ u c, _normalize_text t = u ++ [c] ∧ is_terminal c = true.
Proof.
  unfold _normalize_text.
  destruct (last (join [SPACE] (split (strip t)))) as [c|] eqn:Hl; [|by left].
  right. destruct (is_terminal c) eqn:Hc.
  - apply last_Some in Hl as [u Hu]. by exists u, c.
  - by exists (join [SPACE] (split (strip t))), DOT.
Qed.

(** The normalized text is made of words that are not empty and hold no
    whitespace, joined by single spaces. *)
Lemma normalize_words t :
  ∃ words, Forall (λ x : str, x ≠ [] ∧ Forall (λ c, isspace c = false) x) words
           ∧ _normalize_text t = join [SPACE] words
           ∧ (words = [] ↔ split_by isspace [] t = []).
Proof.
  unfold _normalize_text, split, strip. rewrite split_strip.
  pose proof (split_words isspace [] t ltac:(constructor)) as Hg.
  destruct (last (join [SPACE] (split_by isspace [] t))) as [c|] eqn:Hl.
  - assert (split_by isspace [] t ≠ []) as Hne by (by intros Heq; rewrite Heq in Hl).
    destruct (is_terminal c).
    + by exists (split_by isspace [] t).
    + destruct (join_snoc isspace (split_by isspace [] t) DOT Hg Hne isspace_DOT)
        as (words' & Hg' & Hj).
      exists words'. split; [done|]. split; [done|].
      split; [|done]. intros ->. simpl in Hj.
      apply (f_equal length) in Hj. rewrite length_app in Hj. simpl in Hj. lia.
  - apply last_None in Hl. exists []. split; [constructor|]. split; [done|].
    split; [|done]. intros _. by apply (join_nil isspace).
Qed.

(** X3: the normalized text is empty exactly when the input holds
    nothing but whitespace; otherwise it ends in [.], [!] or [?]; it has
    no run of whitespace left to collapse and nothing left to trim; and
    normalizing it again gives it back. *)
Theorem normalize_text_fixed t :
  let n := _normalize_text t in
  (n = [] ↔ Forall (λ c, isspace c = true) t)
  ∧ (n ≠ [] → ∃ u c, n = u ++ [c] ∧ is_terminal c = true)
  ∧ collapse_whitespace n = n
  ∧ strip n = n
  ∧ _normalize_text n = n.
Proof.
  intros n. destruct (normalize_words t) as (words & Hg & Hn & Hnil).
  fold n in Hn.
  destruct (joined_fixed isspace isspace_SPACE words Hg) as (Hfix & Hcol & Hstr).
  rewrite <- Hn in Hfix, Hcol, Hstr.
  split.
  { split.
    - intros Hnone. rewrite Hnone in Hn. symmetry in Hn.
      apply (join_nil isspace words Hg), Hnil in Hn.
      by apply (split_nil isspace [] t) in Hn as [_ ?].
    - intros Hb. rewrite Hn.
      assert (words = []) as -> by (by apply Hnil, (split_nil isspace [] t)).
      done. }
  split.
  { intros Hne. by destruct (normalize_last t) as [?|?]. }
  split; [done|]. split; [done|].
  unfold _normalize_text at 1. fold strip split in Hfix. rewrite Hfix.
  destruct (normalize_last t) as [Hnone|(u & c & Hu & Hc)].
  - change (n = []) in Hnone. by rewrite Hnone.
  - change (n = u ++ [c]) in Hu. by rewrite Hu, last_snoc, Hc.
Qed.

Lemma normalize_text_fixed_witness :
  _normalize_text (codes "hi") ≠ []
  ∧ ∃ u c, _normalize_text (codes "hi") = u ++ [c] ∧ is_terminal c = true.
Proof.
  split; [discriminate|].
  destruct (normalize_text_fixed (codes "hi")) as (_ & H & _).
  apply H. discriminate.
Defined.

(** ** The texts of the stored entries *)

Lemma skipped_false_nonempty st m n dup : skipped st m n dup = false → n ≠ [].
Proof. intros Hs ->. done. Qed.

Lemma run_call_entries_normalized st c :
  wf st →
  Forall (λ e, text e ≠ [] ∧ _normalize_text (text e) = text e) (entry_store st) →
  Forall (λ e, text e ≠ [] ∧ _normalize_text (text e) = text e)
    (entry_store (run_call st c)).
Proof.
  intros Hwf Hall.
  assert (Hstore : ∀ m t ts dup,
    Forall (λ e, text e ≠ [] ∧ _normalize_text (text e) = text e)
      (entry_store (_store_transcript st m t ts dup).1)).
  { intros m t ts dup. destruct (skipped st m (_normalize_text t) dup) eqn:Hs.
    - by destruct (store_skipped st m t ts dup m Hs) as (_ & -> & _).
    - destruct (store_stored st m t ts dup Hwf Hs) as (_ & -> & _).
      apply Forall_app. split; [done|]. constructor; [|constructor]. simpl.
      split; [by eapply skipped_false_nonempty|].
      by destruct (normalize_text_fixed t) as (_ & _ & _ & _ & ?). }
  destruct c as [m|m t ts|m t ts|m|m now|m]; simpl.
  - by destruct (init_views st m m) as [-> _].
  - apply Hstore.
  - apply Hstore.
  - by rewrite clear_entry_store.
  - by destruct (retrieval_entry_store st m now) as [-> _].
  - by destruct (retrieval_entry_store st m 0) as [_ ->].
Qed.

Lemma entries_normalized cs :
  Forall (λ e, text e ≠ [] ∧ _normalize_text (text e) = text e)
    (entry_store (run new_service cs)).
Proof.
  induction cs as [|c cs IH] using rev_ind; [constructor|].
  rewrite run_snoc. apply run_call_entries_normalized; [apply wf_trace | done].
Qed.

(** X4: every entry the service has made carries a normalized text: not
    empty, ending in [.], [!] or [?], and left as it is by
    normalization; so a final fragment made of the very text of the last
    entry of the deque is always skipped. *)
Theorem stored_texts_normalized cs a e :
  let st := run new_service cs in
  read_entry st a = Some e →
  text e ≠ []
  ∧ (∃ u c, text e = u ++ [c] ∧ is_terminal c = true)
  ∧ _normalize_text (text e) = text e
  ∧ ∀ m ts, last (recent_view st m) = Some a →
            (add_final_transcript st m (text e) ts).2 = None.
Proof.
  intros st Ha.
  pose proof (entries_normalized cs) as Hall. fold st in Hall.
  rewrite Forall_forall in Hall.
  destruct (Hall e) as [Hne Hfix]; [by eapply list_elem_of_lookup_2|].
  split; [done|]. split.
  { destruct (normalize_last (text e)) as [Hn|Hn]; rewrite Hfix in Hn; done. }
  split; [done|]. intros m ts Hlast.
  unfold add_final_transcript. rewrite store_result, Hfix.
  assert (skipped st m (text e) false = true) as ->; [|done].
  apply skipped_final_iff; [done|]. apply last_recent_text_Some.
  exists a, e. by repeat split.
Qed.

Lemma stored_texts_normalized_witness :
  read_entry one_entry 0 = Some (mkEntry (codes "same.") 0)
  ∧ _normalize_text (codes "same.") = codes "same.".
Proof.
  split; [reflexivity|].
  destruct (stored_texts_normalized [AddFinal meeting_a (codes "same") 0] 0%nat
              (mkEntry (codes "same.") 0) eq_refl) as (_ & _ & H & _).
  exact H.
Defined.

(** ** A stream in the order of its timestamps *)

Section OrderedStream.
Implicit Types (st : Service) (m : str) (c : call) (cs : list call).

Lemma ingest_times_app m cs cs' :
  ingest_times m (cs ++ cs') = ingest_times m cs ++ ingest_times m cs'.
Proof.
  induction cs as [|c cs IH]; [done|].
  destruct c; simpl; try done; case_bool_decide; simpl; by rewrite IH.
Qed.

Lemma time_at_prefix st st' a :
  entry_store st `prefix_of` entry_store st' →
  (a < length (entry_store st))%nat → time_at st' a = time_at st a.
Proof.
  intros Hpre Ha. unfold time_at.
  destruct (lookup_lt_is_Some_2 (entry_store st) a Ha) as [e He].
  change (read_entry st a = Some e) in He.
  by rewrite (read_entry_prefix st st' a e Hpre He), He.
Qed.

Lemma by_time_ext st st' l :
  (∀ a, a ∈ l → time_at st' a = time_at st a) →
  StronglySorted (by_time st) l → StronglySorted (by_time st') l.
Proof.
  intros Hext Hs. induction Hs as [|a l Hs IH Hall]; [constructor|].
  constructor.
  - apply IH. intros b Hb. apply Hext. by right.
  - rewrite Forall_forall in Hall |- *. intros b Hb. unfold by_time.
    rewrite !Hext by (by (left || right)). by apply Hall.
Qed.

Lemma by_time_suffix st l k :
  k `suffix_of` l → StronglySorted (by_time st) l → StronglySorted (by_time st) k.
Proof. intros [p ->]. apply StronglySorted_app_1_r. Qed.

(** What one call does to the two views of a meeting: it shortens the
    deque at the front, or empties both, or appends one new entry to
    both, after pruning the deque. *)
Lemma store_views st m0 t ts dup m :
  wf st →
  let st' := (_store_transcript st m0 t ts dup).1 in
  (recent_view st' m = recent_view st m
   ∧ history_view st' m = history_view st m)
  ∨ (m0 = m
     ∧ entry_store st' = entry_store st ++ [mkEntry (_normalize_text t) ts]
     ∧ recent_view st' m
       = popleft_while (entry_store st) (ts - BUFFER_WINDOW_MS)
           (recent_view st m) ++ [length (entry_store st)]
     ∧ history_view st' m = history_view st m ++ [length (entry_store st)]).
Proof.
  intros Hwf st'. subst st'.
  destruct (skipped st m0 (_normalize_text t) dup) eqn:Hs.
  - destruct (store_skipped st m0 t ts dup m Hs) as (_ & _ & Hr & Hh).
    by left.
  - destruct (store_stored st m0 t ts dup Hwf Hs) as (_ & He & Hr & Hh & Ho).
    destruct (decide (m0 = m)) as [->|Hne].
    + right. by repeat split.
    + left. by apply Ho.
Qed.

Lemma run_call_views st c m :
  wf st →
  let st' := run_call st c in
  (recent_view st' m `suffix_of` recent_view st m
   ∧ history_view st' m = history_view st m)
  ∨ (recent_view st' m = [] ∧ history_view st' m = [])
  ∨ (∃ ts n, ingest_times m [c] = [ts]
       ∧ entry_store st' = entry_store st ++ [mkEntry n ts]
       ∧ recent_view st' m
         = popleft_while (entry_store st) (ts - BUFFER_WINDOW_MS)
             (recent_view st m) ++ [length (entry_store st)]
       ∧ history_view st' m = history_view st m ++ [length (entry_store st)]).
Proof.
  intros Hwf st'. subst st'.
  destruct c as [m0|m0 t ts|m0 t ts|m0|m0 now|m0]; simpl.
  - destruct (init_views st m0 m) as (_ & -> & ->). by left.
  - unfold add_final_transcript.
    destruct (store_views st m0 t ts false m Hwf)
      as [[-> ->]|(-> & He & Hr & Hh)]; [by left|].
    right; right. exists ts, (_normalize_text t).
    by rewrite bool_decide_eq_true_2.
  - unfold add_partial_transcript.
    destruct (store_views st m0 t ts true m Hwf)
      as [[-> ->]|(-> & He & Hr & Hh)]; [by left|].
    right; right. exists ts, (_normalize_text t).
    by rewrite bool_decide_eq_true_2.
  - destruct (decide (m0 = m)) as [->|Hne].
    + right; left. by destruct (clear_views_same st m) as [-> ->].
    + left. by destruct (clear_views_other st m0 Hwf m Hne) as [-> ->].
  - destruct (get_recent_views st m0 now Hwf m) as (_ & -> & ->).
    left. split; [|done].
    destruct (decide (m0 = m)); [apply popleft_while_suffix | done].
  - destruct (get_full_views st m0 Hwf m) as (_ & -> & ->). by left.
Qed.
End OrderedStream.

Section OrderedInvariant.
Implicit Types (st : Service) (m : str) (c : call) (cs : list call).

Lemma time_at_new st st' n ts :
  entry_store st' = entry_store st ++ [mkEntry n ts] →
  time_at st' (length (entry_store st)) = ts.
Proof.
  intros He. unfold time_at, read_entry.
  by rewrite He, lookup_app_r, Nat.sub_diag.
Qed.

Lemma head_in_window st cutoff q h rest a :
  wf st → (∀ x, x ∈ q → (x < length (entry_store st))%nat) →
  StronglySorted (by_time st) q →
  popleft_while (entry_store st) cutoff q = h :: rest →
  a ∈ h :: rest → cutoff ≤ time_at st a.
Proof.
  intros Hwf Hal Hs Hq Ha.
  pose proof (popleft_while_head _ _ _ _ _ Hq) as Hfresh.
  pose proof (popleft_while_suffix (entry_store st) cutoff q) as Hsuf.
  rewrite Hq in Hsuf.
  assert (h ∈ q) as Hh by (destruct Hsuf as [p ->]; apply elem_of_app; right; by left).
  destruct (lookup_lt_is_Some_2 (entry_store st) h (Hal h Hh)) as [e He].
  assert (cutoff ≤ time_at st h) as Hcut.
  { unfold time_at, read_entry. rewrite He. simpl.
    destruct (Z.lt_ge_cases (timestamp e) cutoff) as [Hlt|Hge]; [|done].
    destruct Hfresh. by exists e. }
  pose proof (by_time_suffix st q (h :: rest) Hsuf Hs) as Hs'.
  apply StronglySorted_cons in Hs' as [Hall _].
  apply elem_of_cons in Ha as [->|Ha]; [done|].
  rewrite Forall_forall in Hall. specialize (Hall a Ha).
  unfold by_time in Hall. lia.
Qed.

Lemma ordered_stream_inv cs m :
  StronglySorted Z.le (ingest_times m cs) →
  let st := run new_service cs in
  (∀ a, a ∈ history_view st m → time_at st a ∈ ingest_times m cs)
  ∧ StronglySorted (by_time st) (history_view st m)
  ∧ StronglySorted (by_time st) (recent_view st m)
  ∧ (∀ a z, a ∈ recent_view st m → last (recent_view st m) = Some z →
       time_at st z - BUFFER_WINDOW_MS ≤ time_at st a).
Proof.
  induction cs as [|c cs IH] using rev_ind; intros Hsorted st.
  { subst st. split; [by intros a Ha; apply not_elem_of_nil in Ha|].
    split; [constructor|]. split; [constructor|].
    by intros a z Ha; apply not_elem_of_nil in Ha. }
  rewrite ingest_times_app in Hsorted |- *.
  apply StronglySorted_app in Hsorted as (Hcross & Hold & _).
  destruct (IH Hold) as (IA & ID & IB & IC). clear IH.
  subst st. rewrite run_snoc.
  set (st := run new_service cs) in *.
  pose proof (wf_trace cs) as Hwf. fold st in Hwf.
  pose proof (run_call_entry_store st c) as Hpre.
  assert (Hal : ∀ a, a ∈ history_view st m → (a < length (entry_store st))%nat)
    by (intros a; apply history_allocated, Hwf).
  assert (Hkeep : ∀ a, a ∈ history_view st m →
            time_at (run_call st c) a = time_at st a)
    by (intros a Ha; apply time_at_prefix; auto).
  assert (Hrec : ∀ a, a ∈ recent_view st m → a ∈ history_view st m)
    by (intros a; apply recent_in_history, Hwf).
  destruct (run_call_views st c m Hwf)
    as [[Hsuf Hh]|[[Hr Hh]|(ts & n & Hts & He & Hr & Hh)]].
  - rewrite Hh. destruct Hsuf as [p Hp].
    assert (Hsub : ∀ a, a ∈ recent_view (run_call st c) m → a ∈ recent_view st m)
      by (intros a Ha; rewrite Hp; apply elem_of_app; by right).
    split; [intros a Ha; rewrite Hkeep by done; apply elem_of_app; left; auto|].
    split; [by apply (by_time_ext st)|].
    split.
    { apply (by_time_ext st); [by auto|].
      apply (by_time_suffix st (recent_view st m)); [by exists p | done]. }
    intros a z Ha Hz. rewrite !Hkeep.
    + apply IC; [by auto|]. rewrite Hp, last_app, Hz. done.
    + by auto.
    + apply Hrec, Hsub. apply last_Some in Hz as [k ->].
      apply elem_of_app. right. by left.
  - rewrite Hr, Hh.
    split; [by intros a Ha; apply not_elem_of_nil in Ha|].
    split; [constructor|]. split; [constructor|].
    by intros a z Ha; apply not_elem_of_nil in Ha.
  - rewrite Hts, Hr, Hh.
    pose proof (time_at_new st (run_call st c) n ts He) as Hnew.
    assert (Hle : ∀ a, a ∈ history_view st m → time_at (run_call st c) a ≤ ts).
    { intros a Ha. rewrite Hkeep by done. apply Hcross; [by apply IA|].
      rewrite Hts. by left. }
    pose proof (popleft_while_suffix (entry_store st) (ts - BUFFER_WINDOW_MS)
                  (recent_view st m)) as Hsuf.
    assert (Hsub : ∀ a, a ∈ popleft_while (entry_store st)
                            (ts - BUFFER_WINDOW_MS) (recent_view st m) →
                        a ∈ recent_view st m)
      by (intros a Ha; destruct Hsuf as [p ->]; apply elem_of_app; by right).
    split.
    { intros a [Ha| ->%list_elem_of_singleton]%elem_of_app.
      - rewrite Hkeep by done. apply elem_of_app. left. by apply IA.
      - rewrite Hnew. apply elem_of_app. right. by left. }
    split.
    { apply StronglySorted_app. split; [|split].
      - intros a b Ha ->%list_elem_of_singleton. unfold by_time.
        rewrite Hnew. by apply Hle.
      - by apply (by_time_ext st).
      - repeat constructor. }
    split.
    { apply StronglySorted_app. split; [|split].
      - intros a b Ha ->%list_elem_of_singleton. unfold by_time.
        rewrite Hnew. by apply Hle, Hrec, Hsub.
      - apply (by_time_ext st); [by auto|]. by apply (by_time_suffix st _ _ Hsuf).
      - repeat constructor. }
    intros a z Ha Hz. rewrite last_snoc in Hz. injection Hz as <-.
    rewrite Hnew.
    apply elem_of_app in Ha as [Ha| ->%list_elem_of_singleton].
    + rewrite Hkeep by auto.
      destruct (popleft_while (entry_store st) (ts - BUFFER_WINDOW_MS)
                  (recent_view st m)) as [|h rest] eqn:Hq;
        [by apply not_elem_of_nil in Ha|].
      by apply (head_in_window st _ (recent_view st m) h rest a Hwf); auto.
    + rewrite Hnew. unfold BUFFER_WINDOW_MS. lia.
Qed.
End OrderedInvariant.

(** X5: when the fragments of a meeting are ingested in the order of
    their timestamps, whatever other calls come in between, the deque
    and the history of the meeting are in the order of the timestamps at
    all times, every address in the deque is that of an entry, and no
    entry of the deque is more than 30000 ms older than the last one. *)
Theorem ordered_stream_window cs m :
  StronglySorted Z.le (ingest_times m cs) →
  let st := run new_service cs in
  (∀ a, a ∈ recent_view st m → is_Some (read_entry st a))
  ∧ StronglySorted (by_time st) (recent_view st m)
  ∧ StronglySorted (by_time st) (history_view st m)
  ∧ (∀ a z, a ∈ recent_view st m → last (recent_view st m) = Some z →
       time_at st z - 30000 ≤ time_at st a ≤ time_at st z).
Proof.
  intros Hsorted st.
  destruct (ordered_stream_inv cs m Hsorted) as (_ & Hh & Hr & Hw).
  fold st in Hh, Hr, Hw.
  pose proof (wf_trace cs) as Hwf. fold st in Hwf.
  split.
  { intros a Ha. apply lookup_lt_is_Some_2.
    by apply (history_allocated st m), recent_in_history. }
  split; [done|]. split; [done|].
  intros a z Ha Hz. split; [by apply Hw|].
  apply last_Some in Hz as [k Hk]. rewrite Hk in Ha, Hr.
  apply elem_of_app in Ha as [Ha| ->%list_elem_of_singleton]; [|done].
  apply StronglySorted_app in Hr as (Hcross & _ & _).
  apply Hcross; [done | by left].
Qed.

Lemma ordered_stream_window_witness :
  StronglySorted Z.le (ingest_times meeting_a three_fragments)
  ∧ StronglySorted (by_time (run new_service three_fragments))
      (recent_view (run new_service three_fragments) meeting_a).
Proof.
  assert (H : StronglySorted Z.le (ingest_times meeting_a three_fragments)).
  { apply (bool_decide_unpack _). by vm_compute. }
  split; [exact H|].
  by destruct (ordered_stream_window three_fragments meeting_a H) as (_ & ? & _).
Defined.

(** ** A final fragment after any stored fragment *)



(** ** The two retrievals *)

(** X7: what [get_recent_entries] returns is a suffix of what
    [get_full_entries] returns for the same meeting, and its first
    entry, when there is one, is a live entry whose timestamp is not
    below the time of the call minus the window; [get_full_entries]
    returns the whole history and prunes nothing, so a retrieval of the
    recent entries returns the same with or without it. *)
Theorem retrievals_agree cs m now :
  let st := run new_service cs in
  let rec := get_recent_entries st m now in
  let full := get_full_entries rec.1 m in
  let full0 := get_full_entries st m in
  read_seq rec.1 rec.2 `suffix_of` read_seq full.1 full.2
  ∧ read_seq full.1 full.2 = history_view st m
  ∧ read_seq full0.1 full0.2 = history_view st m
  ∧ recent_view full0.1 m = recent_view st m
  ∧ read_seq (get_recent_entries full0.1 m now).1
      (get_recent_entries full0.1 m now).2
    = read_seq rec.1 rec.2
  ∧ (∀ a rest, read_seq rec.1 rec.2 = a :: rest →
       ∃ e, read_entry st a = Some e ∧ now - 30000 ≤ timestamp e).
Proof.
  intros st rec full full0.
  pose proof (wf_trace cs) as Hwf. fold st in Hwf.
  pose proof (wf_get_recent st m now Hwf) as Hwf1. fold rec in Hwf1.
  pose proof (wf_get_full st m Hwf) as Hwf0. fold full0 in Hwf0.
  destruct (get_recent_result st m now Hwf) as [_ Hr].
  destruct (get_recent_views st m now Hwf m) as (_ & Hv & Hh).
  destruct (get_full_result rec.1 m) as [_ Hf].
  destruct (get_full_result st m) as [_ Hf0].
  destruct (get_full_views st m Hwf m) as (He0 & Hv0 & Hh0).
  destruct (get_recent_result full0.1 m now Hwf0) as [_ Hr0].
  destruct (get_recent_views full0.1 m now Hwf0 m) as (_ & Hv1 & _).
  fold rec in Hr, Hv, Hh. fold full in Hf. fold full0 in Hf0, He0, Hv0, Hh0.
  destruct (decide (m = m)) as [_|]; [|done].
  rewrite Hr, Hf, Hf0, Hr0, Hv1, Hv, Hv0, He0, Hh.
  split.
  { etrans; [apply popleft_while_suffix | by apply recent_suffix_history]. }
  do 4 (split; [done|]).
  intros a rest Hq.
  pose proof (popleft_while_head _ _ _ _ _ Hq) as Hfresh.
  assert (a ∈ recent_view st m) as Ha.
  { destruct (popleft_while_suffix (entry_store st) (now - BUFFER_WINDOW_MS)
                (recent_view st m)) as [p Hp].
    rewrite Hp, Hq. apply elem_of_app. right. by left. }
  apply (recent_in_history st m a Hwf), (history_allocated st m a Hwf) in Ha.
  destruct (lookup_lt_is_Some_2 (entry_store st) a Ha) as [e He].
  exists e. split; [done|].
  destruct (Z.lt_ge_cases (timestamp e) (now - 30000)) as [Hlt|Hge]; [|done].
  destruct Hfresh. by exists e.
Qed.

Lemma retrievals_agree_witness :
  read_seq
    (get_recent_entries (run new_service three_fragments) meeting_a 45000).1
    (get_recent_entries (run new_service three_fragments) meeting_a 45000).2
  = [2%nat]
  ∧ ∃ e, read_entry (run new_service three_fragments) 2 = Some e
         ∧ 45000 - 30000 ≤ timestamp e.
Proof.
  split; [reflexivity|].
  destruct (retrievals_agree three_fragments meeting_a 45000)
    as (_ & _ & _ & _ & _ & H).
  apply (H 2%nat []). reflexivity.
Defined.

(** ** Lists handed out are snapshots *)

Lemma write_seq_id st r :
  (r < length (seq_store st))%nat → write_seq st r (read_seq st r) = st.
Proof.
  intros Hr. destruct st as [es ss bs]. unfold write_seq, read_seq; simpl in *.
  f_equal. destruct (lookup_lt_is_Some_2 ss r Hr) as [l Hl].
  rewrite Hl; simpl. by apply list_insert_id.
Qed.

(** No call of the service writes to a list that belongs to a caller. *)
Lemma run_read_owned st r cs :
  caller_owned st r → read_seq (run st cs) r = read_seq st r.
Proof.
  intros Hfree.
  rewrite <- (write_seq_id st r) at 1 by apply Hfree.
  rewrite run_write by done.
  apply read_write_eq, (caller_owned_run st r cs Hfree).
Qed.

Lemma contents_stable st st' l :
  entry_store st `prefix_of` entry_store st' →
  Forall (λ a, (a < length (entry_store st))%nat) l →
  contents st' l = contents st l.
Proof.
  intros Hpre Hall. unfold contents. apply list_fmap_ext. intros i a Ha.
  assert (a < length (entry_store st))%nat as Hlt.
  { rewrite Forall_forall in Hall. apply Hall.
    by eapply list_elem_of_lookup_2. }
  destruct (lookup_lt_is_Some_2 (entry_store st) a Hlt) as [e He].
  rewrite (read_entry_prefix st st' a e Hpre He). by symmetry.
Qed.

(** X8: a list returned by [get_recent_entries] or [get_full_entries]
    is a snapshot.  Whatever calls follow, among them [clear_meeting],
    which empties the containers of the buffer in place, and ingests
    that prune the deque, the returned list holds the same entries in
    the same order, each of them a live entry with its text and
    timestamp unchanged. *)
Theorem returned_list_is_a_snapshot cs m now cs' :
  let st := run new_service cs in
  let rec := get_recent_entries st m now in
  let full := get_full_entries st m in
  (read_seq (run rec.1 cs') rec.2 = read_seq rec.1 rec.2
   ∧ contents (run rec.1 cs') (read_seq rec.1 rec.2)
     = contents st (read_seq rec.1 rec.2)
   ∧ Forall is_Some (contents st (read_seq rec.1 rec.2)))
  ∧ (read_seq (run full.1 cs') full.2 = history_view st m
     ∧ contents (run full.1 cs') (history_view st m)
       = contents st (history_view st m)
     ∧ Forall is_Some (contents st (history_view st m))).
Proof.
  intros st rec full.
  pose proof (wf_trace cs) as Hwf. fold st in Hwf.
  assert (Hhist : Forall (λ a, (a < length (entry_store st))%nat)
                    (history_view st m)).
  { apply Forall_forall. intros a. apply (history_allocated st m a Hwf). }
  assert (Hsome : ∀ l, Forall (λ a, (a < length (entry_store st))%nat) l →
                       Forall is_Some (contents st l)).
  { intros l Hl. unfold contents. apply Forall_fmap.
    eapply Forall_impl; [exact Hl|]. intros a Ha.
    by apply lookup_lt_is_Some_2. }
  destruct (retrieval_entry_store st m now) as [Her Hef].
  fold rec in Her. fold full in Hef.
  split.
  - destruct (get_recent_result st m now Hwf) as [_ Hr].
    destruct (get_recent_views st m now Hwf m) as (_ & Hv & _).
    fold rec in Hr, Hv.
    destruct (decide (m = m)) as [_|]; [|done].
    assert (Hrec : Forall (λ a, (a < length (entry_store st))%nat)
                     (read_seq rec.1 rec.2)).
    { rewrite Hr, Hv. apply Forall_forall. intros a Ha.
      apply (history_allocated st m a Hwf), (recent_in_history st m a Hwf).
      destruct (popleft_while_suffix (entry_store st)
                  (now - BUFFER_WINDOW_MS) (recent_view st m)) as [p Hp].
      rewrite Hp. apply elem_of_app. by right. }
    split; [|split].
    + apply run_read_owned, get_recent_caller_owned, Hwf.
    + apply contents_stable; [|done].
      rewrite <- Her. apply run_entry_store.
    + by apply Hsome.
  - destruct (get_full_result st m) as [_ Hf]. fold full in Hf.
    split; [|split].
    + rewrite <- Hf. apply run_read_owned, get_full_caller_owned, Hwf.
    + apply contents_stable; [|done].
      rewrite <- Hef. apply run_entry_store.
    + by apply Hsome.
Qed.

(** ** The history is the log of the ingest calls *)

Section Log.
Variable m : str.
Implicit Types (st : Service) (log : list (loc * TranscriptEntry)).
Local Abbreviation logs := (is_log m).

Lemma logs_same st st' log :
  wf st → entry_store st `prefix_of` entry_store st' →
  history_view st' m = history_view st m →
  logs st log → logs st' log.
Proof.
  intros Hwf Hpre Hh (Hl & Hc & Hn). split; [by rewrite Hh|].
  split; [|done].
  rewrite <- Hl, (contents_kept st st' m Hwf Hpre). by rewrite Hl.
Qed.

Lemma logs_store st log t ts dup :
  wf st → logs st log →
  logs (_store_transcript st m t ts dup).1
    (log ++ logged (_store_transcript st m t ts dup).2 t ts).
Proof.
  intros Hwf Hlog.
  destruct (skipped st m (_normalize_text t) dup) eqn:Hs.
  - destruct (store_skipped st m t ts dup m Hs) as (-> & He & _ & Hh).
    simpl. rewrite app_nil_r.
    apply (logs_same st); [done | by rewrite He | done | done].
  - destruct (store_stored st m t ts dup Hwf Hs) as (-> & He & _ & Hh & _).
    destruct Hlog as (Hl & Hc & Hn). simpl.
    assert (Hpre : entry_store st `prefix_of`
                     entry_store (_store_transcript st m t ts dup).1)
      by (rewrite He; by eexists).
    unfold is_log. rewrite !fmap_app. simpl.
    split; [by rewrite Hh, Hl|]. split.
    + unfold contents in *. rewrite fmap_app. f_equal.
      * rewrite <- Hc, <- Hl.
        apply (contents_kept st _ m Hwf Hpre).
      * simpl. unfold read_entry. rewrite He.
        by rewrite lookup_app_r, Nat.sub_diag by done.
    + apply NoDup_app. split; [done|]. split; [|apply NoDup_singleton].
      intros a Ha ->%list_elem_of_singleton. rewrite <- Hl in Ha.
      apply (history_allocated st m _ Hwf) in Ha. lia.
Qed.

Lemma logs_run_call st log c :
  wf st → logs st log → logs (run_call st c) (log_call m st log c).
Proof.
  intros Hwf Hlog.
  assert (Hother : ∀ m0 t ts dup, m0 ≠ m →
            logs (_store_transcript st m0 t ts dup).1 log).
  { intros m0 t ts dup Hne. apply (logs_same st); [done | | | done].
    - apply store_entry_store.
    - destruct (skipped st m0 (_normalize_text t) dup) eqn:Hs.
      + by destruct (store_skipped st m0 t ts dup m Hs) as (_ & _ & _ & ->).
      + destruct (store_stored st m0 t ts dup Hwf Hs) as (_ & _ & _ & _ & Ho).
        by destruct (Ho m Hne) as [_ ->]. }
  destruct c as [m0|m0 t ts|m0 t ts|m0|m0 now|m0]; simpl.
  - apply (logs_same st); [done | | | done].
    + by destruct (init_views st m0 m) as (-> & _).
    + by destruct (init_views st m0 m) as (_ & _ & ->).
  - destruct (decide (m0 = m)) as [->|Hne].
    + by apply logs_store.
    + by apply Hother.
  - destruct (decide (m0 = m)) as [->|Hne].
    + by apply logs_store.
    + by apply Hother.
  - destruct (decide (m0 = m)) as [->|Hne].
    + destruct (clear_views_same st m) as [_ Hh].
      split; [done|]. split; [done | constructor].
    + apply (logs_same st); [done | | | done].
      * apply (run_call_entry_store st (ClearMeeting m0)).
      * by destruct (clear_views_other st m0 Hwf m Hne) as [_ ->].
  - apply (logs_same st); [done | | | done].
    + by destruct (get_recent_views st m0 now Hwf m) as (-> & _).
    + by destruct (get_recent_views st m0 now Hwf m) as (_ & _ & ->).
  - apply (logs_same st); [done | | | done].
    + by destruct (get_full_views st m0 Hwf m) as (-> & _).
    + by destruct (get_full_views st m0 Hwf m) as (_ & _ & ->).
Qed.

Lemma logs_run st log cs :
  wf st → logs st log → logs (run st cs) (ingest_log m st log cs).
Proof.
  revert st log. induction cs as [|c cs IH]; intros st log Hwf Hlog; [done|].
  simpl. apply IH; [by apply wf_run_call | by apply logs_run_call].
Qed.
End Log.

(** X9: the history of a meeting is the log of its ingest calls.  After
    any sequence of calls, [get_full_entries] returns exactly the
    entries that the ingest calls for the meeting have returned since
    the last [clear_meeting] for it, in the order of the calls, every
    entry once, and each holds the normalized text and the timestamp of
    its call: a fragment that was accepted is never lost, moved or
    stored twice. *)
Theorem history_is_ingest_log cs m :
  let st := run new_service cs in
  let log := ingest_log m new_service [] cs in
  read_seq (get_full_entries st m).1 (get_full_entries st m).2 = log.*1
  ∧ contents st log.*1 = Some <$> log.*2
  ∧ NoDup log.*1.
Proof.
  intros st log.
  destruct (logs_run m new_service [] cs) as (Hh & Hc & Hn).
  - apply wf_new_service.
  - split; [done|]. split; [done | constructor].
  - destruct (get_full_result st m) as [_ ->]. by repeat split.
Qed.

(** ** Fragments that arrive out of order *)

Lemma popleft_while_keeps es cutoff q a rest :
  ¬ expired es cutoff a →
  ∃ front, popleft_while es cutoff (q ++ a :: rest) = front ++ a :: rest.
Proof.
  intros Hn. induction q as [|x q IH].
  - exists []. by apply popleft_while_fresh.
  - simpl. destruct (es !! x) as [e|]; [|by exists (x :: q)].
    destruct (timestamp e <? cutoff); [done | by exists (x :: q)].
Qed.

(** X10: pruning looks at the front of the deque only.  When a stored
    fragment is followed by a fragment of the same meeting with another
    text and a timestamp that lies more than the window before the time
    of a later retrieval, while the first fragment is still inside the
    window, [get_recent_entries] returns both: its result ends with the
    two entries, the last of them older than the window. *)
Theorem stale_entry_behind_fresh cs m raw1 ts1 dup1 raw2 ts2 dup2 now a1 :
  let st := run new_service cs in
  let s1 := _store_transcript st m raw1 ts1 dup1 in
  let s2 := _store_transcript s1.1 m raw2 ts2 dup2 in
  let got := get_recent_entries s2.1 m now in
  s1.2 = Some a1 →
  _normalize_text raw2 ≠ [] →
  _normalize_text raw2 ≠ _normalize_text raw1 →
  now - BUFFER_WINDOW_MS ≤ ts1 →
  ts2 < now - BUFFER_WINDOW_MS →
  ∃ a2 front,
    s2.2 = Some a2
    ∧ read_seq got.1 got.2 = front ++ [a1; a2]
    ∧ read_entry got.1 a2 = Some (mkEntry (_normalize_text raw2) ts2)
    ∧ ts2 < now - BUFFER_WINDOW_MS.
Proof.
  intros st s1 s2 got Hr1 Hn2 Hne Hin Hout.
  pose proof (wf_trace cs) as Hwf. fold st in Hwf.
  assert (Hs1 : skipped st m (_normalize_text raw1) dup1 = false).
  { pose proof (store_result st m raw1 ts1 dup1) as Hr. fold s1 in Hr.
    rewrite Hr1 in Hr. by destruct (skipped _ _ _ _). }
  destruct (store_stored st m raw1 ts1 dup1 Hwf Hs1) as (Ha1 & He1 & Hv1 & _).
  fold s1 in Ha1, He1, Hv1.
  assert (a1 = length (entry_store st)) as -> by congruence.
  pose proof (wf_store st m raw1 ts1 dup1 Hwf) as Hwf1. fold s1 in Hwf1.
  pose proof (last_recent_text_stored st m raw1 ts1 dup1 Hwf Hs1) as Hlast.
  fold s1 in Hlast.
  assert (Hs2 : skipped s1.1 m (_normalize_text raw2) dup2 = false).
  { destruct dup2; [by apply skipped_partial|].
    destruct (skipped s1.1 m (_normalize_text raw2) false) eqn:Hs; [|done].
    apply skipped_final_iff in Hs; [|done]. congruence. }
  destruct (store_stored s1.1 m raw2 ts2 dup2 Hwf1 Hs2)
    as (Ha2 & He2 & Hv2 & _).
  fold s2 in Ha2, He2, Hv2.
  pose proof (wf_store s1.1 m raw2 ts2 dup2 Hwf1) as Hwf2. fold s2 in Hwf2.
  destruct (get_recent_result s2.1 m now Hwf2) as [_ Hres].
  destruct (get_recent_views s2.1 m now Hwf2 m) as (Heg & Hvg & _).
  fold got in Hres, Heg, Hvg.
  destruct (decide (m = m)) as [_|]; [|done].
  set (n1 := length (entry_store st)) in *.
  set (n2 := length (entry_store s1.1)) in *.
  assert (Hat1 : ∀ k, (entry_store st ++ [mkEntry (_normalize_text raw1) ts1]
                       ++ k) !! n1 = Some (mkEntry (_normalize_text raw1) ts1)).
  { intros k. rewrite lookup_app_r by (subst n1; lia).
    by rewrite Nat.sub_diag. }
  assert (Hfresh1 : ∀ c, c ≤ ts1 → ¬ expired (entry_store s1.1) c n1).
  { intros c Hc (e & He & Hlt). rewrite He1 in He.
    rewrite <- (app_nil_r [_]) in He. rewrite (Hat1 []) in He.
    simplify_eq. simpl in Hlt. lia. }
  assert (Hfresh2 : ¬ expired (entry_store s2.1)
                      (now - BUFFER_WINDOW_MS) n1).
  { intros (e & He & Hlt). rewrite He2, He1, <- app_assoc in He.
    rewrite Hat1 in He. simplify_eq. simpl in Hlt. lia. }
  destruct (popleft_while_keeps (entry_store s1.1) (ts2 - BUFFER_WINDOW_MS)
              (popleft_while (entry_store st) (ts1 - BUFFER_WINDOW_MS)
                 (recent_view st m)) n1 [])
    as [f1 Hf1].
  { apply Hfresh1. unfold BUFFER_WINDOW_MS in *. lia. }
  rewrite <- Hv1 in Hf1. rewrite Hf1 in Hv2.
  destruct (popleft_while_keeps (entry_store s2.1) (now - BUFFER_WINDOW_MS)
              f1 n1 [n2] Hfresh2) as [f2 Hf2].
  exists n2, f2. split; [done|]. split; [|split; [|done]].
  - rewrite Hres, Hvg, Hv2, <- app_assoc. exact Hf2.
  - unfold read_entry. rewrite Heg, He2.
    by rewrite lookup_app_r, Nat.sub_diag by done.
Qed.

Lemma stale_entry_behind_fresh_witness :
  ∃ a2 front,
    (_store_transcript
       (_store_transcript new_service meeting_a (codes "now") 100000 false).1
       meeting_a (codes "late") 1000 false).2 = Some a2
    ∧ read_seq
        (get_recent_entries
           (_store_transcript
              (_store_transcript new_service meeting_a (codes "now")
                 100000 false).1
              meeting_a (codes "late") 1000 false).1 meeting_a 100000).1
        (get_recent_entries
           (_store_transcript
              (_store_transcript new_service meeting_a (codes "now")
                 100000 false).1
              meeting_a (codes "late") 1000 false).1 meeting_a 100000).2
      = front ++ [0%nat; a2]
    ∧ read_entry
        (get_recent_entries
           (_store_transcript
              (_store_transcript new_service meeting_a (codes "now")
                 100000 false).1
              meeting_a (codes "late") 1000 false).1 meeting_a 100000).1 a2
      = Some (mkEntry (_normalize_text (codes "late")) 1000)
    ∧ 1000 < 100000 - BUFFER_WINDOW_MS.
Proof.
  apply (stale_entry_behind_fresh [] meeting_a (codes "now") 100000 false
           (codes "late") 1000 false 100000 0%nat).
  - reflexivity.
  - vm_compute. discriminate.
  - vm_compute. discriminate.
  - vm_compute. discriminate.
  - reflexivity.
Defined.

(** ** The task candidates of a request *)

Section Strip.
Variable ws : N → bool.
Implicit Types (s x y z : str) (c : N).

Lemma lstrip_head s c r : lstrip_by ws s = c :: r → ws c = false.
Proof.
  induction s as [|d s IH]; simpl; [done|].
  destruct (ws d) eqn:Hd; [done|]. by intros [= <- _].
Qed.

Lemma lstrip_keeps x c z :
  ws c = false → ∃ y, lstrip_by ws (x ++ c :: z) = y ++ c :: z.
Proof.
  intros Hc. induction x as [|d x IH]; simpl.
  - exists []. by rewrite Hc.
  - destruct (ws d); [done | by exists (d :: x)].
Qed.

(** What [strip] returns has no whitespace at either end. *)
Lemma strip_is_tight s : tight_by ws (strip_by ws s).
Proof.
  unfold strip_by. destruct (lstrip_by ws s) as [|c l] eqn:Hl; [by left|].
  pose proof (lstrip_head _ _ _ Hl) as Hc. right. simpl.
  destruct (lstrip_keeps (rev l) c [] Hc) as [y Hy]. rewrite Hy.
  rewrite rev_app_distr. simpl. split; [by exists c, (rev y)|].
  destruct y as [|d y].
  - by exists [], c.
  - simpl in Hy. apply lstrip_head in Hy.
    exists (c :: rev y), d. by rewrite <- app_comm_cons.
Qed.

(** [strip] returns the empty string for whitespace only. *)
Lemma strip_nil_iff s :
  strip_by ws s = [] ↔ Forall (λ c, ws c = true) s.
Proof.
  split.
  - intros Hs. destruct (strip_split ws s) as (pre & post & Hpre & Hpost & Heq).
    rewrite Hs in Heq. rewrite Heq. apply Forall_app. by split.
  - intros Hs. unfold strip_by. by rewrite (lstrip_blank ws s Hs).
Qed.
End Strip.

Section Candidates.
Import ZoomAI.
Variable float : Type.
Implicit Types (item : DetectedTask float) (tasks : list (DetectedTask float)).

Lemma lower_priority item :
  lower (priority_or_medium item)
  ∈ [codes "low"; codes "medium"; codes "high"].
Proof.
  unfold priority_or_medium. destruct (priority item) as [[]|];
    vm_compute; set_solver.
Qed.

Lemma normalized_tasks_cons now item tasks :
  normalized_tasks now (item :: tasks)
  = match strip (title item) with
    | [] => normalized_tasks now tasks
    | _ =>
        mkCandidate float (strip (title item))
          (if truthy (description item)
           then strip (or_empty (description item)) else [])
          (strip (or_empty (or_else (assignee item) (assigneeEmail item))))
          (lower (priority_or_medium item))
          (deadline item) (confidence item) now
        :: normalized_tasks now tasks
    end.
Proof. done. Qed.

Lemma normalized_titles now tasks :
  c_title <$> normalized_tasks now tasks
  = filter (λ t, t ≠ []) (strip ∘ title <$> tasks).
Proof.
  induction tasks as [|item tasks IH]; [done|].
  rewrite normalized_tasks_cons, fmap_cons, filter_cons.
  change ((strip ∘ title) item) with (strip (title item)).
  destruct (strip (title item)) as [|c t] eqn:Ht.
  - by rewrite decide_False by (by intros ?).
  - rewrite decide_True by done. rewrite fmap_cons. by rewrite IH.
Qed.

Lemma normalized_nil_iff now tasks :
  normalized_tasks now tasks = []
  ↔ Forall (λ item, Forall (λ c, isspace c = true) (title item)) tasks.
Proof.
  induction tasks as [|item tasks IH]; [by split; [constructor|]|].
  rewrite normalized_tasks_cons, Forall_cons, <- IH.
  rewrite <- (strip_nil_iff isspace (title item)). fold strip.
  destruct (strip (title item)) as [|c t]; [tauto|].
  split; [done | by intros [? _]].
Qed.
End Candidates.

(** X11: the candidates built from the tasks of a request.  Their
    titles are, in the order of the request, the stripped titles of the
    tasks whose title is not whitespace only; every candidate has a
    title that is not empty, title, description and assignee without
    whitespace at either end, one of the three priorities and the time
    of the request; the request is refused with status 422 exactly when
    every title is whitespace only, and otherwise the candidates are
    handed on and there is at least one. *)
Theorem task_candidates_spec (float : Type) now
  (tasks : list (ZoomAI.DetectedTask float)) :
  let out := ZoomAI.normalized_tasks now tasks in
  ZoomAI.c_title <$> out
  = filter (λ t, t ≠ []) (strip ∘ ZoomAI.title <$> tasks)
  ∧ Forall (λ c,
      ZoomAI.c_title c ≠ []
      ∧ tight_by isspace (ZoomAI.c_title c)
      ∧ tight_by isspace (ZoomAI.c_description c)
      ∧ tight_by isspace (ZoomAI.c_assignee c)
      ∧ ZoomAI.c_priority c ∈ [codes "low"; codes "medium"; codes "high"]
      ∧ ZoomAI.c_detectedAt c = now) out
  ∧ (ZoomAI.task_candidates now tasks
     = inl (ZoomAI.mkHTTPException 422 (codes "No valid tasks supplied"))
     ↔ Forall (λ item, Forall (λ c, isspace c = true) (ZoomAI.title item))
         tasks)
  ∧ (∀ l, ZoomAI.task_candidates now tasks = inr l ↔ l = out ∧ out ≠ []).
Proof.
  intros out. split; [apply normalized_titles|]. split; [|split].
  - subst out. induction tasks as [|item tasks IH]; [constructor|].
    rewrite normalized_tasks_cons.
    destruct (strip (ZoomAI.title item)) as [|c t] eqn:Ht; [done|].
    constructor; [|done]. simpl.
    split; [done|]. split; [rewrite <- Ht; apply strip_is_tight|].
    split; [destruct (ZoomAI.truthy _); [apply strip_is_tight | by left]|].
    split; [apply strip_is_tight|]. split; [apply lower_priority | done].
  - rewrite <- (normalized_nil_iff float now tasks). fold out.
    unfold ZoomAI.task_candidates. fold out. by destruct out.
  - intros l. unfold ZoomAI.task_candidates. fold out.
    destruct out as [|c out']; [by split; [|intros [_ ?]]|].
    split; [by intros [= <-] | by intros [-> _]].
Qed.

(** ** The candidate of one task *)

Section Candidate.
Import ZoomAI.
Variable float : Type.
Implicit Types (item : DetectedTask float) (tasks : list (DetectedTask float)).

Lemma strip_nil : strip [] = [].
Proof. done. Qed.

Lemma lower_literal p : lower (literal p) = literal p.
Proof. by destruct p. Qed.

Lemma candidate_in now tasks item :
  item ∈ tasks → strip (title item) ≠ [] →
  mkCandidate float (strip (title item))
    (if truthy (description item)
     then strip (or_empty (description item)) else [])
    (strip (or_empty (or_else (assignee item) (assigneeEmail item))))
    (lower (priority_or_medium item))
    (deadline item) (confidence item) now
  ∈ normalized_tasks now tasks.
Proof.
  intros Hin Ht. induction tasks as [|x tasks IH].
  - by apply elem_of_nil in Hin.
  - rewrite normalized_tasks_cons.
    apply elem_of_cons in Hin as [<-|Hin].
    + destruct (strip (title item)); [done | by left].
    + destruct (strip (title x)); [by apply IH | right; by apply IH].
Qed.
End Candidate.

(** X12: the candidate of a task whose title is not whitespace only.
    The assignee is the stripped [assignee] whenever that field is a
    non-empty string, so an [assignee] of whitespace only gives the
    empty assignee and [assigneeEmail] is not looked at; only for a
    missing or empty [assignee] the stripped [assigneeEmail] is used.
    The description is the stripped description (empty when missing),
    the priority the given one or [medium], and deadline and confidence
    are passed on as they are. *)
Theorem candidate_of_task (float : Type) now
  (tasks : list (ZoomAI.DetectedTask float)) item :
  item ∈ tasks → strip (ZoomAI.title item) ≠ [] →
  ∃ c, c ∈ ZoomAI.normalized_tasks now tasks
    ∧ ZoomAI.c_title c = strip (ZoomAI.title item)
    ∧ (∀ s, ZoomAI.assignee item = Some s → s ≠ [] →
         ZoomAI.c_assignee c = strip s
         ∧ (Forall (λ x, isspace x = true) s → ZoomAI.c_assignee c = []))
    ∧ (ZoomAI.assignee item = None ∨ ZoomAI.assignee item = Some [] →
         ZoomAI.c_assignee c
         = strip (ZoomAI.or_empty (ZoomAI.assigneeEmail item)))
    ∧ ZoomAI.c_description c
      = strip (ZoomAI.or_empty (ZoomAI.description item))
    ∧ ZoomAI.c_priority c
      = ZoomAI.literal (default ZoomAI.medium (ZoomAI.priority item))
    ∧ ZoomAI.c_deadline c = ZoomAI.deadline item
    ∧ ZoomAI.c_confidence c = ZoomAI.confidence item
    ∧ ZoomAI.c_detectedAt c = now.
Proof.
  intros Hin Ht. eexists. split; [by apply candidate_in|]. simpl.
  split; [done|]. split; [|split; [|split; [|split]]].
  - intros s Hs Hne. rewrite Hs. unfold ZoomAI.or_else.
    destruct s as [|x s]; [done|]. simpl. split; [done|].
    intros Hall. by apply (strip_nil_iff isspace).
  - intros [Ha|Ha]; rewrite Ha; unfold ZoomAI.or_else; simpl; [done|].
    by destruct (ZoomAI.assigneeEmail item).
  - destruct (ZoomAI.description item) as [[|x d]|]; done.
  - unfold ZoomAI.priority_or_medium.
    destruct (ZoomAI.priority item) as [p|]; simpl; [|done].
    apply lower_literal.
  - done.
Qed.

Lemma candidate_of_task_witness :
  ∃ c, c ∈ ZoomAI.normalized_tasks 1700000000000
             [ZoomAI.mkDetectedTask Z (codes "  Send the report ") None
                (Some (codes "  ")) (Some (codes "ann@example.com"))
                None None None]
    ∧ ZoomAI.c_title c = codes "Send the report"
    ∧ ZoomAI.c_assignee c = []
    ∧ ZoomAI.c_priority c = codes "medium".
Proof.
  destruct (candidate_of_task Z 1700000000000
              [ZoomAI.mkDetectedTask Z (codes "  Send the report ") None
                 (Some (codes "  ")) (Some (codes "ann@example.com"))
                 None None None]
              (ZoomAI.mkDetectedTask Z (codes "  Send the report ") None
                 (Some (codes "  ")) (Some (codes "ann@example.com"))
                 None None None))
    as (c & Hin & Ht & Ha & _ & _ & Hp & _).
  - by left.
  - vm_compute. discriminate.
  - exists c. split; [exact Hin|]. split; [exact Ht|]. split; [|exact Hp].
    apply (Ha (codes "  ")); [reflexivity | discriminate |].
    repeat constructor.
Defined.

(** ** The bot key *)

(** X13: [require_zoom_bot_key] lets a request through, as ['zoom-bot'],
    exactly when a key is configured, is not empty, is ASCII and the
    header carries the same string.  Without a configured key (unset or
    empty) every request ends in status 500, whatever its header, and
    when the configured key or a non-empty header holds a character
    outside ASCII the comparison raises [TypeError]; a request is never
    let through otherwise. *)
Theorem require_zoom_bot_key_spec expected header :
  (ZoomAI.require_zoom_bot_key expected header
   = ZoomAI.Returns (codes "zoom-bot")
   ↔ ∃ k, expected = Some k ∧ header = Some k ∧ k ≠ []
          ∧ ZoomAI.is_ascii k = true)
  ∧ (∀ v, ZoomAI.require_zoom_bot_key expected header = ZoomAI.Returns v →
          v = codes "zoom-bot")
  ∧ (ZoomAI.require_zoom_bot_key expected header
     = ZoomAI.Raises (ZoomAI.mkHTTPException 500
                        (codes "ZOOM_BOT_API_KEY is not configured"))
     ↔ expected = None ∨ expected = Some [])
  ∧ (ZoomAI.require_zoom_bot_key expected header = ZoomAI.TypeError
     ↔ ∃ k h, expected = Some k ∧ header = Some h ∧ k ≠ [] ∧ h ≠ []
              ∧ (ZoomAI.is_ascii k = false ∨ ZoomAI.is_ascii h = false)).
Proof.
  unfold ZoomAI.require_zoom_bot_key, ZoomAI.compare_digest.
  destruct expected as [[|x k]|]; cbn [ZoomAI.truthy negb ZoomAI.or_empty].
  1, 3: (split; [split; [done | intros (k' & Hk & _ & Hne & _); by simplify_eq]|];
         split; [done|]; split; [split; [intros _; (by left) || (by right) | done]|];
         split; [done | intros (k' & h' & Hk & _ & Hne & _); by simplify_eq]).
  destruct header as [[|y h]|]; cbn [ZoomAI.truthy negb ZoomAI.or_empty].
  1, 3: (split; [split; [done | intros (k' & Hk & Hh & _); by simplify_eq]|];
         split; [done|]; split; [split; [done | by intros [?|?]]|];
         split; [done | intros (k' & h' & _ & Hh & _ & Hne & _); by simplify_eq]).
  destruct (ZoomAI.is_ascii (y :: h)) eqn:Hh;
    destruct (ZoomAI.is_ascii (x :: k)) eqn:Hk; cbn [andb].
  - case_bool_decide as Heq.
    + split; [split; [intros _; exists (x :: k); by rewrite Heq | done]|].
      split; [by intros v [= <-]|]. split; [split; [done | by intros [?|?]]|].
      split; [done|].
      intros (k' & h' & ? & ? & _ & _ & [?|?]); simplify_eq; congruence.
    + split; [split; [done | intros (k' & ? & ? & _); by simplify_eq]|].
      split; [done|]. split; [split; [done | by intros [?|?]]|].
      split; [done|].
      intros (k' & h' & ? & ? & _ & _ & [?|?]); simplify_eq; congruence.
  - split; [split; [done | intros (k' & ? & ? & _ & ?); simplify_eq; congruence]|].
    split; [done|]. split; [split; [done | by intros [?|?]]|].
    split; [|done]. intros _. exists (x :: k), (y :: h).
    repeat split; try done. by left.
  - split; [split; [done | intros (k' & ? & ? & _ & ?); simplify_eq; congruence]|].
    split; [done|]. split; [split; [done | by intros [?|?]]|].
    split; [|done]. intros _. exists (x :: k), (y :: h).
    repeat split; try done. by right.
  - split; [split; [done | intros (k' & ? & ? & _ & ?); simplify_eq; congruence]|].
    split; [done|]. split; [split; [done | by intros [?|?]]|].
    split; [|done]. intros _. exists (x :: k), (y :: h).
    repeat split; try done. by left.
Qed.

(** ** The recent entries are those of the window *)

Section Window.
Variables (m : str) (bound : Z).
Implicit Types (st : Service) (c : call) (cs : list call).

Lemma clock_times_cons c cs :
  clock_times m (c :: cs) = clock_times m [c] ++ clock_times m cs.
Proof. destruct c; simpl; try done; by case_bool_decide. Qed.

Lemma pruned_below_same st st' :
  wf st → entry_store st `prefix_of` entry_store st' →
  recent_view st' m = recent_view st m →
  history_view st' m = history_view st m →
  pruned_below st m bound → pruned_below st' m bound.
Proof.
  intros Hwf Hpre Hr Hh (gone & Hg & Hall). exists gone.
  rewrite Hr, Hh. split; [done|].
  rewrite Forall_forall in Hall |- *. intros a Ha.
  rewrite (time_at_prefix st st') by
    (try done; apply (history_allocated st m a Hwf); rewrite Hg;
     apply elem_of_app; by left).
  by apply Hall.
Qed.

(** Pruning with a cutoff that is not above the bound, and then
    appending to both views. *)
Lemma pruned_below_prune st st' cutoff tail :
  wf st → entry_store st `prefix_of` entry_store st' →
  cutoff ≤ bound →
  recent_view st' m
  = popleft_while (entry_store st) cutoff (recent_view st m) ++ tail →
  history_view st' m = history_view st m ++ tail →
  pruned_below st m bound → pruned_below st' m bound.
Proof.
  intros Hwf Hpre Hc Hr Hh (gone & Hg & Hall).
  destruct (popleft_while_split (entry_store st) cutoff (recent_view st m))
    as (gone' & Hq & Hexp).
  exists (gone ++ gone'). split.
  - rewrite Hh, Hr, Hg. rewrite Hq at 1. by rewrite <- !app_assoc.
  - assert (Hin : ∀ a, a ∈ gone ++ gone' → a ∈ history_view st m).
    { intros a Ha. rewrite Hg, Hq, app_assoc. apply elem_of_app. by left. }
    rewrite Forall_forall. intros a Ha.
    rewrite (time_at_prefix st st') by
      (try done; by apply (history_allocated st m a Hwf), Hin).
    apply elem_of_app in Ha as [Ha|Ha].
    + rewrite Forall_forall in Hall. by apply Hall.
    + rewrite Forall_forall in Hexp. destruct (Hexp a Ha) as (e & He & Hlt).
      unfold time_at, read_entry. rewrite He. simpl. lia.
Qed.

Lemma pruned_below_store st m0 t ts dup :
  wf st → (m0 = m → ts - BUFFER_WINDOW_MS ≤ bound) →
  pruned_below st m bound →
  pruned_below (_store_transcript st m0 t ts dup).1 m bound.
Proof.
  intros Hwf Hts Hp.
  pose proof (store_entry_store st m0 t ts dup) as Hpre.
  destruct (store_views st m0 t ts dup m Hwf) as [[Hr Hh]|(Hm & _ & Hr & Hh)].
  - by apply (pruned_below_same st).
  - by apply (pruned_below_prune st _ (ts - BUFFER_WINDOW_MS)
                [length (entry_store st)]); auto.
Qed.

Lemma pruned_below_run_call st c :
  wf st →
  Forall (λ t, t - BUFFER_WINDOW_MS ≤ bound) (clock_times m [c]) →
  pruned_below st m bound → pruned_below (run_call st c) m bound.
Proof.
  intros Hwf Hc Hp.
  pose proof (run_call_entry_store st c) as Hpre.
  destruct c as [m0|m0 t ts|m0 t ts|m0|m0 now|m0]; simpl in *.
  - destruct (init_views st m0 m) as (_ & Hr & Hh).
    by apply (pruned_below_same st).
  - apply pruned_below_store; [done | | done]. intros ->.
    rewrite bool_decide_eq_true_2 in Hc by done. by inversion Hc.
  - apply pruned_below_store; [done | | done]. intros ->.
    rewrite bool_decide_eq_true_2 in Hc by done. by inversion Hc.
  - destruct (decide (m0 = m)) as [->|Hne].
    + destruct (clear_views_same st m) as [Hr Hh].
      exists []. rewrite Hr, Hh. split; [done | constructor].
    + destruct (clear_views_other st m0 Hwf m Hne) as [Hr Hh].
      by apply (pruned_below_same st).
  - destruct (get_recent_views st m0 now Hwf m) as (_ & Hr & Hh).
    destruct (decide (m0 = m)) as [->|Hne].
    + rewrite bool_decide_eq_true_2 in Hc by done.
      apply (pruned_below_prune st _ (now - BUFFER_WINDOW_MS) []);
        rewrite ?app_nil_r; try done. by inversion Hc.
    + by apply (pruned_below_same st).
  - destruct (get_full_views st m0 Hwf m) as (_ & Hr & Hh).
    by apply (pruned_below_same st).
Qed.

Lemma pruned_below_run st cs :
  wf st →
  Forall (λ t, t - BUFFER_WINDOW_MS ≤ bound) (clock_times m cs) →
  pruned_below st m bound → pruned_below (run st cs) m bound.
Proof.
  revert st. induction cs as [|c cs IH]; intros st Hwf Hc Hp; [done|].
  rewrite clock_times_cons in Hc. apply Forall_app in Hc as [Hc1 Hc2].
  simpl. apply IH; [by apply wf_run_call | done |].
  by apply pruned_below_run_call.
Qed.
End Window.

Section Filter.
Implicit Types (st : Service) (q : list loc).

Lemma filter_all {A} (P : A → Prop) `{∀ x, Decision (P x)} (l : list A) :
  Forall P l → filter P l = l.
Proof.
  induction 1 as [|x l Hx _ IH]; [done|].
  by rewrite filter_cons, decide_True, IH.
Qed.

Lemma filter_none {A} (P : A → Prop) `{∀ x, Decision (P x)} (l : list A) :
  Forall (λ x, ¬ P x) l → filter P l = [].
Proof.
  induction 1 as [|x l Hx _ IH]; [done|].
  by rewrite filter_cons, decide_False, IH.
Qed.

(** On a deque in the order of the timestamps, the loop of [_prune]
    leaves exactly the entries that are not older than the cutoff. *)
Lemma popleft_while_filter st cutoff q :
  (∀ a, a ∈ q → (a < length (entry_store st))%nat) →
  StronglySorted (by_time st) q →
  popleft_while (entry_store st) cutoff q
  = filter (λ a, cutoff ≤ time_at st a) q.
Proof.
  intros Hal Hs. induction Hs as [|a q Hs IH Hall]; [done|].
  destruct (lookup_lt_is_Some_2 (entry_store st) a) as [e He];
    [apply Hal; by left|].
  assert (Ht : time_at st a = timestamp e)
    by (unfold time_at, read_entry; by rewrite He).
  simpl. rewrite He, filter_cons.
  destruct (Z.ltb_spec (timestamp e) cutoff) as [Hlt|Hge].
  - rewrite decide_False by lia. apply IH. intros b Hb. apply Hal. by right.
  - rewrite decide_True by lia. f_equal. symmetry. apply filter_all.
    eapply Forall_impl; [exact Hall|]. intros b Hb. unfold by_time in Hb. lia.
Qed.
End Filter.

(** X14: with a clock that does not run backwards,
    [get_recent_entries] returns the entries of the window.  When the
    fragments of a meeting were ingested in the order of their
    timestamps and no earlier call for the meeting (ingest or retrieval
    of the recent entries) carried a time after that of the retrieval,
    the list returned is exactly the history of the meeting restricted
    to the entries whose timestamp is not below the time of the
    retrieval minus 30000 ms, in the same order. *)
Theorem recent_is_window cs m now :
  StronglySorted Z.le (ingest_times m cs) →
  Forall (λ t, t ≤ now) (clock_times m cs) →
  let st := run new_service cs in
  let got := get_recent_entries st m now in
  read_seq got.1 got.2
  = filter (λ a, now - 30000 ≤ time_at st a) (history_view st m).
Proof.
  intros Hsorted Hclock st got.
  pose proof (wf_trace cs) as Hwf. fold st in Hwf.
  destruct (ordered_stream_inv cs m Hsorted) as (_ & _ & Hrs & _).
  fold st in Hrs.
  destruct (pruned_below_run m (now - BUFFER_WINDOW_MS) new_service cs)
    as (gone & Hg & Hall).
  { apply wf_new_service. }
  { eapply Forall_impl; [exact Hclock|]. intros t Ht. simpl in Ht. lia. }
  { exists []. split; [done | constructor]. }
  fold st in Hg, Hall.
  destruct (get_recent_result st m now Hwf) as [_ Hres].
  destruct (get_recent_views st m now Hwf m) as (_ & Hv & _).
  fold got in Hres, Hv.
  destruct (decide (m = m)) as [_|]; [|done].
  rewrite Hres, Hv, Hg, filter_app.
  change 30000 with BUFFER_WINDOW_MS.
  rewrite (filter_none _ gone)
    by (eapply Forall_impl; [exact Hall|]; intros a Ha; simpl in Ha; lia).
  simpl. apply popleft_while_filter; [|done].
  intros a Ha. by apply (history_allocated st m), recent_in_history.
Qed.

Lemma recent_is_window_witness :
  read_seq
    (get_recent_entries (run new_service three_fragments) meeting_a 45000).1
    (get_recent_entries (run new_service three_fragments) meeting_a 45000).2
  = filter (λ a, 45000 - 30000
                 ≤ time_at (run new_service three_fragments) a)
      (history_view (run new_service three_fragments) meeting_a).
Proof.
  apply (recent_is_window three_fragments meeting_a 45000).
  - apply (bool_decide_unpack _). by vm_compute.
  - apply (bool_decide_unpack _). by vm_compute.
Defined.
